(** * EPH pipeline: a shallow embedding of the statistical aggregation layer

    The development follows the Python sources of the pipeline
    ([cleaning.py], [ingresos.py], [tasas.py], [boxplots.py],
    [graficos_ingresos.py], [te_ramas_participacion.py],
    [recortar_aglomerados.py], [main.py]).

    Numeric model.  A pandas/numpy float cell is a [float := option Q]:
    [None] is NaN (the "missing" value of the pipeline) and [Some q] is a
    finite number, idealised as an exact rational (no rounding).  Infinite
    values are not represented; a division by zero, which numpy answers with
    NaN or an infinity, yields the single non-finite value [None].

    Tables.  The clean EPH table is a list of typed records; its key columns
    (ANO4, TRIMESTRE, AGLOMERADO) are integers and its other columns are
    float cells, so [pd.to_numeric] is the identity on them and is left out.
    Only the raw table of [cleaning.py], whose cells may still be text, is
    modelled column by column.  A [groupby] lists its groups by sorted key
    and keeps the rows of a group in table order.  The income tables are
    modelled on a selection that holds a record: on an empty selection
    pandas raises at [reset_index], where the model has the empty table. *)

From Stdlib Require Import ZArith QArith Qround Lia Lqa List Bool Sorting.Sorted.
From stdpp Require Import gmap strings pretty.
Import ListNotations.

Open Scope Q_scope.

(** ** Float cells *)

Module Float.

Definition float : Type := option Q.

Definition NaN : float := None.

Definition isnan (a : float) : bool :=
  match a with None => true | Some _ => false end.

(** [a > 0], [a >= k], [a <= b], [a == k]: comparisons with NaN are false. *)
Definition gt0 (a : float) : bool :=
  match a with Some x => negb (Qle_bool x 0) | None => false end.

Definition ge (a : float) (k : Q) : bool :=
  match a with Some x => Qle_bool k x | None => false end.

Definition le (a b : float) : bool :=
  match a, b with Some x, Some y => Qle_bool x y | _, _ => false end.

Definition lt0 (a : float) : bool :=
  match a with Some x => negb (Qle_bool 0 x) | None => false end.

Definition eqk (a : float) (k : Q) : bool :=
  match a with Some x => Qeq_bool x k | None => false end.

Definition fadd (a b : float) : float :=
  match a, b with Some x, Some y => Some (x + y) | _, _ => None end.

Definition fmul (a b : float) : float :=
  match a, b with Some x, Some y => Some (x * y) | _, _ => None end.

(** Float division: a zero divisor gives a non-finite result. *)
Definition fdiv (a b : float) : float :=
  match a, b with
  | Some x, Some y => if Qeq_bool y 0 then None else Some (x / y)
  | _, _ => None
  end.

(** [np.sum] of a float array. *)
Definition fsum (l : list float) : float := fold_right fadd (Some 0) l.

(** Sum that skips NaN, as pandas' [sum] does. *)
Definition nansum (l : list float) : Q :=
  fold_right (fun a acc => match a with Some x => x + acc | None => acc end) 0 l.

(** Equality of cells up to the representation of rationals;
    two missing cells are equal. *)
Definition feq (a b : float) : Prop :=
  match a, b with
  | Some x, Some y => x == y
  | None, None => True
  | _, _ => False
  end.

(** [int(x)] and [astype(int)]: truncation towards zero. *)
Definition trunc (x : Q) : Z := Z.quot (Qnum x) (Zpos (Qden x)).

End Float.
Import Float.

(** ** Order statistics (pandas [Series.median] and [Series.quantile]) *)

Module Stats.

Fixpoint insert_sorted (x : Q) (l : list Q) : list Q :=
  match l with
  | [] => [x]
  | y :: l' => if Qle_bool x y then x :: l else y :: insert_sorted x l'
  end.

Definition sort (l : list Q) : list Q := fold_right insert_sorted [] l.

(** Linear interpolation at the fractional position [pos] of a sorted
    array [s]: numpy's default ("linear") method. *)
Definition interpolate (s : list Q) (pos : Q) : Q :=
  let lo := Qfloor pos in
  let hi := Z.min (lo + 1) (Z.of_nat (length s) - 1) in
  let a := nth (Z.to_nat lo) s 0 in
  let b := nth (Z.to_nat hi) s 0 in
  a + (b - a) * (pos - inject_Z lo).

(** [Series.quantile(q)] on a series without NaN; NaN when empty. *)
Definition quantile (vals : list Q) (q : Q) : float :=
  match vals with
  | [] => None
  | _ => Some (interpolate (sort vals) (q * (inject_Z (Z.of_nat (length vals)) - 1)))
  end.

(** [Series.median()]: the middle order statistic, or the mean of the two
    middle ones; NaN when empty. *)
Definition median (vals : list Q) : float :=
  match vals with
  | [] => None
  | _ =>
      let s := sort vals in
      let n := length vals in
      if Nat.even n
      then Some ((nth (n / 2 - 1) s 0 + nth (n / 2) s 0) / 2)
      else Some (nth (n / 2) s 0)
  end.

End Stats.

(** ** Grouping (pandas [groupby]): sorted distinct keys, rows in order *)

Section GroupBy.
Context {A K : Type}.
Variable key : A -> K.
Variable keqb : K -> K -> bool.
Variable kleb : K -> K -> bool.

Fixpoint insert_key (k : K) (ks : list K) : list K :=
  match ks with
  | [] => [k]
  | k' :: ks' => if kleb k k' then k :: ks else k' :: insert_key k ks'
  end.

Fixpoint unique_keys (ks : list K) : list K :=
  match ks with
  | [] => []
  | k :: ks' =>
      if existsb (keqb k) ks' then unique_keys ks' else k :: unique_keys ks'
  end.

Definition group_keys (rows : list A) : list K :=
  fold_right insert_key [] (unique_keys (List.map key rows)).

Definition group_rows (k : K) (rows : list A) : list A :=
  List.filter (fun r => keqb (key r) k) rows.

Definition groupby (rows : list A) : list (K * list A) :=
  List.map (fun k => (k, group_rows k rows)) (group_keys rows).
End GroupBy.

(** Key orders. *)
Definition eqb_ZZ (a b : Z * Z) : bool :=
  (Z.eqb (fst a) (fst b) && Z.eqb (snd a) (snd b))%bool.
Definition leb_ZZ (a b : Z * Z) : bool :=
  (Z.ltb (fst a) (fst b) || (Z.eqb (fst a) (fst b) && Z.leb (snd a) (snd b)))%bool.
Definition eqb_ZZZ (a b : Z * Z * Z) : bool :=
  (eqb_ZZ (fst a) (fst b) && Z.eqb (snd a) (snd b))%bool.
Definition leb_ZZZ (a b : Z * Z * Z) : bool :=
  (negb (leb_ZZ (fst b) (fst a))
   || (eqb_ZZ (fst a) (fst b) && Z.leb (snd a) (snd b)))%bool.

(** ** Tables *)

(** One survey record (columns of the clean EPH table the pipeline reads). *)
Record eph_row : Type := {
  ANO4 : Z;
  TRIMESTRE : Z;
  AGLOMERADO : Z;
  ESTADO : float;
  CH06 : float;
  PONDERA : float;
  P47T : float;
  PP04B_COD : float
}.

(** Python exceptions raised by the modelled functions. *)
Inductive exn : Type := IndexError | ValueError | KeyError.

Inductive result (A : Type) : Type :=
| Ok (a : A)
| Raise (e : exn).
Arguments Ok {A} a.
Arguments Raise {A} e.

(** ** cleaning.py: the record normaliser *)

Module Cleaning.

(** A raw cell, as [read_csv] leaves it: a number, NaN, or text. *)
Inductive cell : Type :=
| CNaN
| CNum (q : Q)
| CStr (s : string).

(** A DataFrame, column by column. *)
Abbreviation DataFrame := (gmap string (list cell)).

Definition NO_RESPUESTA : list Q := [9; 99; -1].

Definition COLS_CON_NA : list string :=
  ["CH04"; "CH05"; "CH06"; "CH07"; "CH08";
   "CAT_OCUP"; "CAT_INAC";
   "PP04A"; "PP04B_COD"; "P47T"]%string.

Definition NUMERIC_COLS : list string :=
  ["ANO4"; "TRIMESTRE"; "AGLOMERADO"; "PONDERA";
   "ESTADO"; "CH06"; "P47T"]%string.

(** [Series.replace(list(NO_RESPUESTA), np.nan)] on one cell: a number
    equal to one of the codes becomes NaN; text is compared with the
    numeric codes and never equals one. *)
Definition replace_cell (codes : list Q) (c : cell) : cell :=
  match c with
  | CNum q => if existsb (Qeq_bool q) codes then CNaN else CNum q
  | _ => c
  end.

Definition _replace_no_respuesta (df : DataFrame) : DataFrame :=
  fold_left
    (fun df col =>
       match df !! col with
       | Some s => <[col := replace_cell NO_RESPUESTA <$> s]> df
       | None => df
       end)
    COLS_CON_NA df.

Section Numeric.
(** The number pandas reads in a text cell, if any (pandas' own parser). *)
Variable parse_number : string -> option Q.

(** [pd.to_numeric(errors="coerce")] on one cell. *)
Definition to_numeric (c : cell) : cell :=
  match c with
  | CStr s => match parse_number s with Some q => CNum q | None => CNaN end
  | _ => c
  end.

(** [df.loc[df["P47T"] < 0, "P47T"] = np.nan] on one cell. *)
Definition negative_to_nan (c : cell) : cell :=
  match c with
  | CNum q => if negb (Qle_bool 0 q) then CNaN else CNum q
  | _ => c
  end.

Definition _convert_numeric (df : DataFrame) : DataFrame :=
  let df1 :=
    fold_left
      (fun df col =>
         match df !! col with
         | Some s => <[col := to_numeric <$> s]> df
         | None => df
         end)
      NUMERIC_COLS df in
  match df1 !! "P47T"%string with
  | Some s => <["P47T"%string := negative_to_nan <$> s]> df1
  | None => df1
  end.

(** The table [generar_eph_limpia] builds before it adds PERIODO and
    writes the file: sentinel replacement, then numeric conversion. *)
Definition generar_eph_limpia (df : DataFrame) : DataFrame :=
  _convert_numeric (_replace_no_respuesta df).
End Numeric.

End Cleaning.

(** ** ingresos.py: deflation, cohort filters and weighted means *)

Module Ingresos.

(** One entry of the price-index table ([load_ipc]). *)
Record ipc_row : Type := {
  i_ANO4 : Z;
  i_TRIMESTRE : Z;
  i_IPC : float
}.

(** A survey record after the merge with the index. *)
Record defl_row : Type := {
  eph : eph_row;
  IPC : float;
  INGRESO_REAL : float
}.

Definition periodo_ipc (e : ipc_row) : Z * Z := (i_ANO4 e, i_TRIMESTRE e).

Definition same_period (r : eph_row) (e : ipc_row) : bool :=
  (Z.eqb (ANO4 r) (i_ANO4 e) && Z.eqb (TRIMESTRE r) (i_TRIMESTRE e))%bool.

(** [df.merge(ipc_df, how="left", on=["ANO4", "TRIMESTRE"])]: every record,
    in order, once per matching index entry; once with a NaN index when no
    entry matches. *)
Definition merge_left (df : list eph_row) (ipc_df : list ipc_row)
  : list (eph_row * float) :=
  flat_map
    (fun r =>
       match List.filter (same_period r) ipc_df with
       | [] => [(r, NaN)]
       | es => List.map (fun e => (r, i_IPC e)) es
       end)
    df.

Definition is_base (ano_base trimestre_base : Z) (e : ipc_row) : bool :=
  (Z.eqb (i_ANO4 e) ano_base && Z.eqb (i_TRIMESTRE e) trimestre_base)%bool.

Definition deflactar_ingreso (df_eph : list eph_row) (ipc_df : list ipc_row)
           (ano_base trimestre_base : Z) : result (list defl_row) :=
  let df := merge_left df_eph ipc_df in
  (* ipc_df[...]["IPC"].iloc[0] *)
  match List.filter (is_base ano_base trimestre_base) ipc_df with
  | [] => Raise IndexError
  | e :: _ =>
      let ipc_base := i_IPC e in
      Ok (List.map
            (fun ri =>
               {| eph := fst ri;
                  IPC := snd ri;
                  INGRESO_REAL := fmul (P47T (fst ri)) (fdiv ipc_base (snd ri)) |})
            df)
  end.

(** Boolean-mask indexing [a[m]]. *)
Definition mask_index {A : Type} (a : list A) (m : list bool) : list A :=
  List.map fst (List.filter snd (combine a m)).

(** [~np.isnan(x) & (w > 0)] *)
Definition eligible_mask (x w : list float) : list bool :=
  List.map (fun xw => (negb (isnan (fst xw)) && gt0 (snd xw))%bool) (combine x w).

(** Element-wise product of two arrays. *)
Definition mul_arrays (a b : list float) : list float :=
  List.map (fun p => fmul (fst p) (snd p)) (combine a b).

Definition wmean (x w : list float) : float :=
  let m := eligible_mask x w in
  if existsb (fun b => b) m
  then fdiv (fsum (mul_arrays (mask_index x m) (mask_index w m)))
            (fsum (mask_index w m))
  else NaN.

Definition isin (a : Z) (target : option (list Z)) : bool :=
  match target with
  | Some l => existsb (Z.eqb a) l
  | None => true
  end.

(** Rows of the general table: AGLOMERADO | INGRESO_REAL_PROM. *)
Definition ingreso_promedio_por_aglomerado
           (df : list defl_row) (aglomerados_target : option (list Z))
  : list (Z * float) :=
  let df := List.filter (fun r => isin (AGLOMERADO (eph r)) aglomerados_target) df in
  List.map
    (fun g => (fst g, wmean (List.map INGRESO_REAL (snd g))
                            (List.map (fun r => PONDERA (eph r)) (snd g))))
    (groupby (fun r => AGLOMERADO (eph r)) Z.eqb Z.leb df).

(** Rows of the quarterly table:
    AGLOMERADO | ANO4 | TRIMESTRE | INGRESO_REAL_PROM. *)
Definition ingreso_promedio_trimestral_por_aglomerado
           (df : list defl_row) (aglomerados_target : option (list Z))
  : list (Z * Z * Z * float) :=
  let df := List.filter (fun r => isin (AGLOMERADO (eph r)) aglomerados_target) df in
  List.map
    (fun g => (fst g, wmean (List.map INGRESO_REAL (snd g))
                            (List.map (fun r => PONDERA (eph r)) (snd g))))
    (groupby (fun r => (AGLOMERADO (eph r), ANO4 (eph r), TRIMESTRE (eph r)))
             eqb_ZZZ leb_ZZZ df).

End Ingresos.

(** ** tasas.py: labour-force rates *)

Module Tasas.

Record tasas : Type := { TA : Q; TE : Q; TD : Q }.

(** The 18+ cohort: [df[df["CH06"] >= 18]]. *)
Definition adultos (df : list eph_row) : list eph_row :=
  List.filter (fun r => ge (CH06 r) 18) df.

Definition poblacion (df : list eph_row) : nat :=
  length (adultos df).

(** [(df["ESTADO"] == k).sum()] over the 18+ cohort. *)
Definition cuenta_estado (k : Q) (df : list eph_row) : nat :=
  length (List.filter (fun r => eqk (ESTADO r) k) (adultos df)).

Definition ocupados (df : list eph_row) : nat := cuenta_estado 1 df.
Definition desocupados (df : list eph_row) : nat := cuenta_estado 2 df.
Definition pea (df : list eph_row) : nat := (ocupados df + desocupados df)%nat.

Definition ratio (a b : nat) : Q :=
  inject_Z (Z.of_nat a) / inject_Z (Z.of_nat b).

Definition calcular_tasas (df : list eph_row) : tasas :=
  {| TA := if (0 <? poblacion df)%nat then ratio (pea df) (poblacion df) else 0;
     TE := if (0 <? poblacion df)%nat then ratio (ocupados df) (poblacion df) else 0;
     TD := if (0 <? pea df)%nat then ratio (desocupados df) (pea df) else 0 |}.

(** Rows of the quarterly table: (AGLOMERADO, ANO4, TRIMESTRE) | TA, TE, TD. *)
Definition tasas_trimestrales (df : list eph_row) : list (Z * Z * Z * tasas) :=
  List.map
    (fun g => (fst g, calcular_tasas (snd g)))
    (groupby (fun r => (AGLOMERADO r, ANO4 r, TRIMESTRE r)) eqb_ZZZ leb_ZZZ
             (adultos df)).

End Tasas.

(** ** boxplots.py: cleanup for the income distribution *)

Module Boxplots.
Import Ingresos.

(** ASCII lower-casing and substring search, for the column detection. *)
Definition lower_ascii (c : Ascii.ascii) : Ascii.ascii :=
  let n := Ascii.nat_of_ascii c in
  if ((65 <=? n) && (n <=? 90))%nat then Ascii.ascii_of_nat (n + 32) else c.

Fixpoint lower (s : string) : string :=
  match s with
  | EmptyString => EmptyString
  | String c s' => String (lower_ascii c) (lower s')
  end.

Fixpoint contains (sub s : string) : bool :=
  (String.prefix sub s
   || match s with
      | EmptyString => false
      | String _ s' => contains sub s'
      end)%bool.

(** A table: its column names, and its records.  The field INGRESO_REAL of
    a record holds the column that [limpiar_boxplot] renames to that name. *)
Record frame : Type := {
  columns : list string;
  rows : list defl_row
}.

Definition posibles (df : frame) : list string :=
  List.filter
    (fun c => (contains "ingreso" (lower c) && contains "real" (lower c))%bool)
    (columns df).

Definition has_column (c : string) (df : frame) : bool :=
  existsb (String.eqb c) (columns df).

Definition limpiar_boxplot (df : frame) : result (list defl_row) :=
  match posibles df with
  | [] => Raise ValueError
  | _ =>
      (* 2) Eliminar no validos *)
      let df1 := List.filter (fun r => gt0 (INGRESO_REAL r)) (rows df) in
      let df2 := List.filter (fun r => gt0 (PONDERA (eph r))) df1 in
      (* 3) Excluir outliers extremos *)
      let q995 :=
        Stats.quantile
          (flat_map (fun r => match INGRESO_REAL r with Some x => [x] | None => [] end) df2)
          (995 # 1000) in
      let df3 := List.filter (fun r => le (INGRESO_REAL r) q995) df2 in
      (* 4) Filtrar mayores de 18 si existe CH06 *)
      if has_column "CH06" df
      then Ok (List.filter (fun r => ge (CH06 (eph r)) 18) df3)
      else Ok df3
  end.

End Boxplots.

(** ** graficos_ingresos.py: univariate income summary *)

Module GraficosIngresos.
Import Ingresos.

Record uni_row : Type := {
  u_AGLOMERADO : Z;
  u_PERIODO : string;
  MEDIA : float;
  MEDIANA : float;
  Q25 : float;
  Q75 : float
}.

(** [ANO4.astype(str) + "-T" + TRIMESTRE.astype(str)] *)
Definition PERIODO (r : defl_row) : string :=
  (pretty (ANO4 (eph r)) +:+ "-T" +:+ pretty (TRIMESTRE (eph r)))%string.

(** [np.sum(x[mask] * w[mask]) / np.sum(w[mask])], NaN on an empty mask. *)
Definition media_ponderada (x w : list float) : float :=
  let mask := eligible_mask x w in
  if (length (List.filter (fun b => b) mask) =? 0)%nat
  then NaN
  else fdiv (fsum (mul_arrays (mask_index x mask) (mask_index w mask)))
            (fsum (mask_index w mask)).

(** [DataFrame.dropna()] on labelled rows of two float columns. *)
Definition dropna (df : list (nat * (float * float))) : list (nat * (Q * Q)) :=
  flat_map
    (fun p =>
       match fst (snd p), snd (snd p) with
       | Some xi, Some wi => [(fst p, (xi, wi))]
       | _, _ => []
       end)
    df.

(** [pd.DataFrame({"x": x, "w": w}).dropna()]: rows labelled 0, 1, ... by
    position, those with a NaN in either column dropped. *)
Definition dropna_xw (x w : list float) : list (nat * (Q * Q)) :=
  dropna (combine (seq 0 (length x)) (combine x w)).

(** [dfp["w"] > 0] on one row. *)
Definition peso_positivo (p : nat * (Q * Q)) : bool :=
  negb (Qle_bool (snd (snd p)) 0).

(** [dfp.index.repeat(dfp["w"].astype(int))] *)
Definition index_repeat (dfp : list (nat * (Q * Q))) : list nat :=
  flat_map (fun p => repeat (fst p) (Z.to_nat (trunc (snd (snd p))))) dfp.

(** [dfp.loc[labels]]: for each label in turn, the rows carrying it. *)
Definition loc (dfp : list (nat * (Q * Q))) (labels : list nat)
  : list (nat * (Q * Q)) :=
  flat_map (fun l => List.filter (fun p => Nat.eqb (fst p) l) dfp) labels.

(** The expanded income column [dfp_rep["x"]] of one group. *)
Definition dfp_rep_x (x w : list float) : option (list Q) :=
  let dfp := dropna_xw x w in
  let dfp := List.filter peso_positivo dfp in
  match dfp with
  | [] => None
  | _ => Some (List.map (fun p => fst (snd p)) (loc dfp (index_repeat dfp)))
  end.

(** The body of the loop of [calcular_univariado] for one group. *)
Definition univariado_grupo (aglo : Z) (periodo : string) (grupo : list defl_row)
  : uni_row :=
  let x := List.map INGRESO_REAL grupo in
  let w := List.map (fun r => PONDERA (eph r)) grupo in
  let media := media_ponderada x w in
  match dfp_rep_x x w with
  | Some xs =>
      {| u_AGLOMERADO := aglo; u_PERIODO := periodo; MEDIA := media;
         MEDIANA := Stats.median xs;
         Q25 := Stats.quantile xs (25 # 100);
         Q75 := Stats.quantile xs (75 # 100) |}
  | None =>
      {| u_AGLOMERADO := aglo; u_PERIODO := periodo; MEDIA := media;
         MEDIANA := NaN; Q25 := NaN; Q75 := NaN |}
  end.

Definition eqb_Zs (a b : Z * string) : bool :=
  (Z.eqb (fst a) (fst b) && String.eqb (snd a) (snd b))%bool.
Definition leb_Zs (a b : Z * string) : bool :=
  (Z.ltb (fst a) (fst b) || (Z.eqb (fst a) (fst b) && String.leb (snd a) (snd b)))%bool.

Definition calcular_univariado (df_ocup : list defl_row) : list uni_row :=
  List.map
    (fun g => univariado_grupo (fst (fst g)) (snd (fst g)) (snd g))
    (groupby (fun r => (AGLOMERADO (eph r), PERIODO r)) eqb_Zs leb_Zs df_ocup).

End GraficosIngresos.

(** ** te_ramas_participacion.py: branch classifier and participation *)

Module Ramas.

Inductive rama : Type := Industria | Turismo.

Definition eqb_rama (a b : rama) : bool :=
  match a, b with
  | Industria, Industria | Turismo, Turismo => true
  | _, _ => false
  end.

(** Order of the labels "Industria" and "Turismo" as strings. *)
Definition leb_rama (a b : rama) : bool :=
  match a, b with
  | Turismo, Industria => false
  | _, _ => true
  end.

Definition _clasificar_rama (pp04b_cod : float) : option rama :=
  match pp04b_cod with
  | None => None
  | Some q =>
      let c := trunc q in
      if ((1500 <=? c) && (c <? 4000))%Z then Some Industria
      else if ((5000 <=? c) && (c <? 6000))%Z then Some Turismo
      else if ((9100 <=? c) && (c <? 9500))%Z then Some Turismo
      else None
  end.

(** A record with its RAMA_TUR column. *)
Definition agregar_columna_rama (df : list eph_row) : list (eph_row * option rama) :=
  List.map (fun r => (r, _clasificar_rama (PP04B_COD r))) df.

Record part_row : Type := {
  p_AGLOMERADO : Z;
  p_ANO4 : Z;
  RAMA : rama;
  OCUPADOS_RAMA : Q;
  OCUPADOS_TOTALES : float;
  PART_RAMA : float
}.

Definition eqb_ZZr (a b : Z * Z * rama) : bool :=
  (eqb_ZZ (fst a) (fst b) && eqb_rama (snd a) (snd b))%bool.
Definition leb_ZZr (a b : Z * Z * rama) : bool :=
  (negb (leb_ZZ (fst b) (fst a))
   || (eqb_ZZ (fst a) (fst b) && leb_rama (snd a) (snd b)))%bool.

(** The 18+ employed records of the target regions, with their branch
    (the typed records always carry PP04B_COD, so the KeyError of
    [agregar_columna_rama] cannot arise). *)
Definition ocupados_con_rama (df : list eph_row) (aglos_target : option (list Z))
           (edad_min : Z) : list (eph_row * option rama) :=
  let df := List.filter (fun r => Ingresos.isin (AGLOMERADO r) aglos_target) df in
  let df := List.filter (fun r => ge (CH06 r) (inject_Z edad_min)) df in
  let df_ocup := List.filter (fun r => eqk (ESTADO r) 1) df in
  agregar_columna_rama df_ocup.

(** Denominator: [groupby(["AGLOMERADO", "ANO4"])["PONDERA"].sum()] *)
Definition ocup_total (df_ocup : list (eph_row * option rama)) : list (Z * Z * Q) :=
  List.map
    (fun g => (fst g, nansum (List.map (fun r => PONDERA (fst r)) (snd g))))
    (groupby (fun r => (AGLOMERADO (fst r), ANO4 (fst r))) eqb_ZZ leb_ZZ df_ocup).

(** [df_ocup[df_ocup["RAMA_TUR"].notna()]] *)
Definition df_ocup_rama (df_ocup : list (eph_row * option rama))
  : list (eph_row * rama) :=
  flat_map (fun r => match snd r with Some b => [(fst r, b)] | None => [] end) df_ocup.

(** Numerator: [groupby(["AGLOMERADO", "ANO4", "RAMA_TUR"])["PONDERA"].sum()] *)
Definition num (df_ocup : list (eph_row * option rama)) : list (Z * Z * rama * Q) :=
  List.map
    (fun g => (fst g, nansum (List.map (fun r => PONDERA (fst r)) (snd g))))
    (groupby (fun r => (AGLOMERADO (fst r), ANO4 (fst r), snd r)) eqb_ZZr leb_ZZr
             (df_ocup_rama df_ocup)).

(** [num.merge(ocup_total, on=["AGLOMERADO", "ANO4"], how="left")] *)
Definition merge_num_total (n : list (Z * Z * rama * Q)) (t : list (Z * Z * Q))
  : list (Z * Z * rama * Q * float) :=
  flat_map
    (fun nr =>
       match List.filter (fun tr => eqb_ZZ (fst (fst nr)) (fst tr)) t with
       | [] => [(nr, NaN)]
       | ts => List.map (fun tr => (nr, Some (snd tr))) ts
       end)
    n.

Definition participacion_empleo_por_rama
           (df : list eph_row) (aglos_target : option (list Z)) (edad_min : Z)
  : list part_row :=
  let df_ocup := ocupados_con_rama df aglos_target edad_min in
  List.map
    (fun m =>
       let k := fst (fst m) in
       {| p_AGLOMERADO := fst (fst k);
          p_ANO4 := snd (fst k);
          RAMA := snd k;
          OCUPADOS_RAMA := snd (fst m);
          OCUPADOS_TOTALES := snd m;
          PART_RAMA := fdiv (Some (snd (fst m))) (snd m) |})
    (merge_num_total (num df_ocup) (ocup_total df_ocup)).

End Ramas.

(** ** The specification's formulas, stated on the same tables *)

Module Spec.
Import Ingresos.

Definition sum_Q (l : list Q) : Q := fold_right Qplus 0 l.

(** The eligibility test of one record: income present, weight > 0. *)
Definition elegible (r : defl_row) : bool :=
  (negb (isnan (INGRESO_REAL r)) && gt0 (PONDERA (eph r)))%bool.

(** The weight column of a table. *)
Definition pesos (t : list defl_row) : list float :=
  List.map (fun r => PONDERA (eph r)) t.

(** Eligible records of a group, as (income, weight): income present and
    weight strictly positive. *)
Definition elegibles (t : list defl_row) : list (Q * Q) :=
  flat_map
    (fun r =>
       match INGRESO_REAL r, PONDERA (eph r) with
       | Some x, Some w => if Qle_bool w 0 then [] else [(x, w)]
       | _, _ => []
       end)
    t.

(** Weighted mean: sum(x_i * w_i) / sum(w_i) over the eligible records,
    missing when there is none. *)
Definition weighted_mean (t : list defl_row) : float :=
  match elegibles t with
  | [] => NaN
  | e => Some (sum_Q (List.map (fun p => fst p * snd p) e) / sum_Q (List.map snd e))
  end.

(** The records of one region in the general income table. *)
Definition grupo_aglomerado (df : list defl_row) (target : option (list Z)) (aglo : Z)
  : list defl_row :=
  group_rows (fun r => AGLOMERADO (eph r)) Z.eqb aglo
    (List.filter (fun r => isin (AGLOMERADO (eph r)) target) df).

(** The records of one (region, year, quarter) in the quarterly income table. *)
Definition grupo_trimestral (df : list defl_row) (target : option (list Z))
           (k : Z * Z * Z) : list defl_row :=
  group_rows (fun r => (AGLOMERADO (eph r), ANO4 (eph r), TRIMESTRE (eph r))) eqb_ZZZ k
    (List.filter (fun r => isin (AGLOMERADO (eph r)) target) df).

(** The 18+ records of one (region, year, quarter) in the table of rates. *)
Definition grupo_tasas (df : list eph_row) (k : Z * Z * Z) : list eph_row :=
  group_rows (fun r => (AGLOMERADO r, ANO4 r, TRIMESTRE r)) eqb_ZZZ k (Tasas.adultos df).

(** [round]: to the nearest integer, ties to the even one. *)
Definition round_half_even (w : Q) : Z :=
  let f := Qfloor w in
  let d := w - inject_Z f in
  if Qle_bool d (1 # 2)
  then (if Qeq_bool d (1 # 2) then (if Z.even f then f else f + 1) else f)%Z
  else (f + 1)%Z.

(** Weight-as-repetition: every eligible record repeated [copies w] times. *)
Definition expansion (copies : Q -> Z) (t : list defl_row) : list Q :=
  flat_map (fun p => repeat (fst p) (Z.to_nat (copies (snd p)))) (elegibles t).

(** Median, Q25 and Q75 of the expanded multiset. *)
Definition quantiles_by_repetition (copies : Q -> Z) (t : list defl_row)
  : float * float * float :=
  let e := expansion copies t in
  (Stats.median e, Stats.quantile e (25 # 100), Stats.quantile e (75 # 100)).

(** Rebasing identity, as the specification words it: a record of the base
    period whose period has an index entry keeps its nominal income. *)
Definition rebasing_identity (df : list eph_row) (ipc_df : list ipc_row)
           (ano_base trimestre_base : Z) : Prop :=
  forall out, deflactar_ingreso df ipc_df ano_base trimestre_base = Ok out ->
  forall o, In o out ->
    ANO4 (eph o) = ano_base -> TRIMESTRE (eph o) = trimestre_base ->
    (exists e, In e ipc_df /\ same_period (eph o) e = true) ->
    feq (INGRESO_REAL o) (P47T (eph o)).

(** The index series has one entry per period. *)
Definition one_entry_per_period (ipc_df : list ipc_row) : Prop :=
  List.NoDup (List.map periodo_ipc ipc_df).

Import Boxplots.

Definition incomes (df : list defl_row) : list Q :=
  flat_map (fun r => match INGRESO_REAL r with Some x => [x] | None => [] end) df.

(** [trim_outliers(p)]: drop the records above the p-th percentile of the
    table it is applied to. *)
Definition trim_outliers (p : Q) (df : list defl_row) : list defl_row :=
  List.filter (fun r => le (INGRESO_REAL r) (Stats.quantile (incomes df) p)) df.

Definition adult_if_known (df : frame) (r : defl_row) : bool :=
  if has_column "CH06" df then ge (CH06 (eph r)) 18 else true.

(** The order the specification asks for: every validity filter (income,
    weight, age) first, outlier trimming last. *)
Definition validity_then_trimming (df : frame) : list defl_row :=
  trim_outliers (995 # 1000)
    (List.filter
       (fun r => (gt0 (INGRESO_REAL r) && gt0 (PONDERA (eph r))
                  && adult_if_known df r)%bool)
       (rows df)).

(** Records with positive income and positive weight, of any age. *)
Definition positive_income_and_weight (df : frame) : list defl_row :=
  List.filter (fun r => (gt0 (INGRESO_REAL r) && gt0 (PONDERA (eph r)))%bool) (rows df).

Import GraficosIngresos.

(** The three quantiles of a row of the univariate summary. *)
Definition cuantiles (u : uni_row) : float * float * float :=
  (MEDIANA u, Q25 u, Q75 u).

Definition same_quantiles (a b : float * float * float) : Prop :=
  feq (fst (fst a)) (fst (fst b)) /\ feq (snd (fst a)) (snd (fst b))
  /\ feq (snd a) (snd b).


(** The records of one (region, period) group of the univariate summary. *)
Definition grupo_univariado (df_ocup : list defl_row) (aglo : Z) (periodo : string)
  : list defl_row :=
  group_rows (fun r => (AGLOMERADO (eph r), PERIODO r)) eqb_Zs (aglo, periodo) df_ocup.

Import Ramas.



(** The employed records of a region and year that enter the computation. *)
Definition employed (df : list eph_row) (aglos_target : option (list Z))
           (edad_min aglo ano : Z) : list eph_row :=
  List.filter
    (fun r => (isin (AGLOMERADO r) aglos_target && ge (CH06 r) (inject_Z edad_min)
               && eqk (ESTADO r) 1
               && Z.eqb (AGLOMERADO r) aglo && Z.eqb (ANO4 r) ano)%bool)
    df.

(** A record's branch is [b]. *)
Definition en_rama (b : rama) (r : eph_row) : bool :=
  match _clasificar_rama (PP04B_COD r) with
  | Some b' => eqb_rama b' b
  | None => false
  end.


(** Employed weight of one branch in a region and year. *)
Definition branch_employed_weight (df : list eph_row) (aglos_target : option (list Z))
           (edad_min aglo ano : Z) (b : rama) : Q :=
  nansum (List.map PONDERA
            (List.filter (en_rama b) (employed df aglos_target edad_min aglo ano))).

(** Total employed weight of a region and year. *)
Definition total_employed_weight (df : list eph_row) (aglos_target : option (list Z))
           (edad_min aglo ano : Z) : Q :=
  nansum (List.map PONDERA (employed df aglos_target edad_min aglo ano)).


End Spec.

(** ** Example tables *)

Module Fixtures.
Import Ingresos.

(** A record of region 31, first quarter of 2024. *)
Definition persona (estado edad : float) : eph_row :=
  {| ANO4 := 2024; TRIMESTRE := 1; AGLOMERADO := 31;
     ESTADO := estado; CH06 := edad; PONDERA := Some 1;
     P47T := NaN; PP04B_COD := NaN |}.

(** An employed adult of region 31 in 2024-T1 with a nominal income, a
    weight and an activity code. *)
Definition ocupado (ingreso peso codigo : float) : eph_row :=
  {| ANO4 := 2024; TRIMESTRE := 1; AGLOMERADO := 31;
     ESTADO := Some 1; CH06 := Some 30; PONDERA := peso;
     P47T := ingreso; PP04B_COD := codigo |}.

Definition ipc_2024T1 (valor : float) : ipc_row :=
  {| i_ANO4 := 2024; i_TRIMESTRE := 1; i_IPC := valor |}.

(** A deflated record with a real income, a weight and an age. *)
Definition fila (ingreso peso edad : float) : defl_row :=
  {| eph := {| ANO4 := 2024; TRIMESTRE := 1; AGLOMERADO := 31;
               ESTADO := Some 1; CH06 := edad; PONDERA := peso;
               P47T := ingreso; PP04B_COD := NaN |};
     IPC := Some 1;
     INGRESO_REAL := ingreso |}.

(** Two adults earning 100 and 200 and a minor earning 1000. *)
Definition tabla_con_menor : Boxplots.frame :=
  {| Boxplots.columns := ["AGLOMERADO"; "CH06"; "PONDERA"; "INGRESO_REAL"]%string;
     Boxplots.rows := [fila (Some 100) (Some 1) (Some 30);
                       fila (Some 200) (Some 1) (Some 40);
                       fila (Some 1000) (Some 1) (Some 15)] |}.

(** Two employed adults: income 1 with weight 1.6, income 3 with weight 1. *)
Definition grupo_peso_fraccionario : list defl_row :=
  [fila (Some 1) (Some (16 # 10)) (Some 30); fila (Some 3) (Some 1) (Some 30)].




End Fixtures.

(** ** versionar_archivo (main.py and every plotting module) *)

Module Versionado.
Section Versionado.
(** [os.path.splitext], of the Python library. *)
Variable splitext : string -> string * string.

(** [f"{base}_v{version}{ext}"] *)
Definition candidate (path : string) (version : N) : string :=
  (fst (splitext path) +:+ "_v" +:+ pretty version +:+ snd (splitext path))%string.

(** The [while True] loop, run for at most [fuel] iterations over the set
    [fs] of the paths that exist. *)
Fixpoint versionar_loop (fs : gset string) (path : string) (fuel : nat) (version : N)
  : option string :=
  match fuel with
  | O => None
  | S fuel' =>
      if decide (candidate path version ∈ fs)
      then versionar_loop fs path fuel' (version + 1)
      else Some (candidate path version)
  end.

Definition versionar_archivo (fs : gset string) (path : string) (fuel : nat)
  : option string :=
  if decide (path ∈ fs) then versionar_loop fs path fuel 2 else Some path.
End Versionado.
End Versionado.

(** ** Statements about the cleaned table *)

Module CleaningSpec.
Import Cleaning.

(** A numeric cell: NaN or a number. *)
Definition numeric_cell (x : cell) : Prop := x = CNaN \/ exists q, x = CNum q.





End CleaningSpec.

(** ** ingresos.py: the cohort filters and the whole computation *)

Module Pipeline.
Import Ingresos Boxplots.

Definition filtrar_ocupados (df : frame) : frame :=
  {| columns := columns df;
     rows := List.filter (fun r => eqk (ESTADO (eph r)) 1) (rows df) |}.

Definition filtrar_adultos (df : frame) : frame :=
  if has_column "CH06" df
  then {| columns := columns df;
          rows := List.filter (fun r => ge (CH06 (eph r)) 18) (rows df) |}
  else df.

(** [calcular_ingresos], from the index table [load_ipc] has read.
    [columnas] are the column names of the merged table with INGRESO_REAL
    (they decide whether the age filter applies).  The result is
    (df_defl, df_ocup, tabla_aglo, tabla_aglo_trim). *)
Definition calcular_ingresos
           (columnas : list string) (df_eph : list eph_row) (ipc_df : list ipc_row)
           (ano_base trimestre_base : Z) (aglos : option (list Z))
  : result (frame * frame * list (Z * float) * list (Z * Z * Z * float)) :=
  match deflactar_ingreso df_eph ipc_df ano_base trimestre_base with
  | Raise e => Raise e
  | Ok out =>
      let df_defl := {| columns := columnas; rows := out |} in
      let df_defl := filtrar_adultos df_defl in
      let df_ocup := filtrar_ocupados df_defl in
      let tabla_aglo := ingreso_promedio_por_aglomerado (rows df_ocup) aglos in
      let tabla_aglo_trim :=
        ingreso_promedio_trimestral_por_aglomerado (rows df_ocup) aglos in
      Ok (df_defl, df_ocup, tabla_aglo, tabla_aglo_trim)
  end.

(** recortar_aglomerados.py: the rows kept in the reduced file,
    [df[df["AGLOMERADO"].isin(aglos)]]. *)
Definition recortar (df : list eph_row) (aglos : list Z) : list eph_row :=
  List.filter (fun r => isin (AGLOMERADO r) (Some aglos)) df.

(** Files as a map from paths to the tables they hold. *)
Inductive outcome (A : Type) : Type :=
| Done (a : A)
| FileNotFoundError.
Arguments Done {A} a.
Arguments FileNotFoundError {A}.

(** [generar_archivo_recortado]: nothing is written when the reduced file
    exists; the full clean file must exist otherwise. *)
Definition generar_archivo_recortado
           (fs : gmap string (list eph_row)) (path_limpio path_recortado : string)
           (aglos : list Z) : outcome (gmap string (list eph_row)) :=
  match fs !! path_recortado with
  | Some _ => Done fs
  | None =>
      match fs !! path_limpio with
      | None => FileNotFoundError
      | Some df => Done (<[path_recortado := recortar df aglos]> fs)
      end
  end.

(** The two income tables of a result of [calcular_ingresos]. *)
Definition tablas {A B C D : Type} (res : result (A * B * C * D)) : result (C * D) :=
  match res with
  | Ok (_, _, t1, t2) => Ok (t1, t2)
  | Raise e => Raise e
  end.

End Pipeline.

(** * Proofs *)

(** ** Lists *)

Section ListFacts.
Lemma filter_none {A : Type} (f : A -> bool) (l : list A) :
  (forall a, In a l -> f a = false) -> List.filter f l = [].
Proof.
  induction l as [|a l IH]; intros H; simpl; [reflexivity|].
  rewrite (H a (or_introl eq_refl)). apply IH. intros b Hb. apply H. right; exact Hb.
Qed.

Lemma filter_key_unique {A K : Type} (key : A -> K) (f : A -> bool) (k : K)
      (l : list A) (e : A) :
  (forall a, f a = true <-> key a = k) ->
  List.NoDup (List.map key l) -> In e l -> key e = k ->
  List.filter f l = [e].
Proof.
  intros Hf. induction l as [|a l IH]; intros Hnd Hin Hk; [destruct Hin|].
  simpl in Hnd. apply List.NoDup_cons_iff in Hnd. destruct Hnd as [Hnotin Hnd].
  simpl. destruct Hin as [->|Hin].
  - rewrite (proj2 (Hf e) Hk). f_equal. apply filter_none.
    intros b Hb. destruct (f b) eqn:Eb; [|reflexivity]. exfalso.
    apply Hnotin. apply Hf in Eb. rewrite Hk, <- Eb. apply in_map. exact Hb.
  - destruct (f a) eqn:Ea.
    + exfalso. apply Hnotin. apply Hf in Ea. rewrite Ea, <- Hk.
      apply in_map. exact Hin.
    + apply IH; assumption.
Qed.

Lemma filter_filter_andb {A : Type} (f g : A -> bool) (l : list A) :
  List.filter g (List.filter f l) = List.filter (fun a => (f a && g a)%bool) l.
Proof.
  induction l as [|a l IH]; simpl; [reflexivity|].
  destruct (f a); simpl; [destruct (g a)|]; rewrite IH; reflexivity.
Qed.

Lemma filter_all {A : Type} (l : list A) : List.filter (fun _ => true) l = l.
Proof. induction l as [|a l IH]; simpl; [reflexivity|]. rewrite IH. reflexivity. Qed.

Lemma combine_map {A B C : Type} (f : A -> B) (g : A -> C) (l : list A) :
  combine (List.map f l) (List.map g l) = List.map (fun a => (f a, g a)) l.
Proof. induction l as [|a l IH]; simpl; [reflexivity|]. rewrite IH. reflexivity. Qed.

End ListFacts.

(** ** The record normaliser *)

Section CleaningFacts.
Import Cleaning.

(** Applying a cell transformation to the listed columns that exist. *)
Lemma lookup_fold_columns (f : cell -> cell) (cols : list string)
      (df : gmap string (list cell)) (c : string) :
  fold_left
    (fun df col =>
       match df !! col with
       | Some s => <[col := f <$> s]> df
       | None => df
       end)
    cols df !! c
  = Nat.iter (length (List.filter (String.eqb c) cols)) (fmap (fmap f)) (df !! c).
Proof.
  revert df. induction cols as [|col cols IH]; intros df; simpl; [done|].
  rewrite IH. destruct (String.eqb_spec c col) as [->|Hne]; simpl.
  - destruct (df !! col) as [s|] eqn:E.
    + rewrite lookup_insert_eq. clear IH.
      induction (length (List.filter (String.eqb col) cols)) as [|n IHn];
        simpl; [done|]. by rewrite IHn.
    + rewrite E. clear IH.
      induction (length (List.filter (String.eqb col) cols)) as [|n IHn];
        simpl; [done|]. by rewrite <- IHn.
  - destruct (df !! col) as [s|] eqn:E; [|done].
    by rewrite lookup_insert_ne.
Qed.

Lemma replace_no_respuesta_P47T (df : gmap string (list cell)) :
  _replace_no_respuesta df !! "P47T"%string
  = fmap (replace_cell NO_RESPUESTA) <$> (df !! "P47T"%string).
Proof. unfold _replace_no_respuesta. by rewrite lookup_fold_columns. Qed.

Lemma convert_numeric_P47T parse (df : gmap string (list cell)) :
  _convert_numeric parse df !! "P47T"%string
  = fmap (fun c => negative_to_nan (to_numeric parse c)) <$> (df !! "P47T"%string).
Proof.
  unfold _convert_numeric.
  set (df1 := fold_left _ NUMERIC_COLS df).
  assert (H : df1 !! "P47T"%string = fmap (to_numeric parse) <$> (df !! "P47T"%string)).
  { unfold df1. by rewrite lookup_fold_columns. }
  cbv zeta. rewrite H.
  destruct (df !! "P47T"%string) as [s|]; simpl.
  - rewrite lookup_insert_eq. f_equal. by rewrite <- list_fmap_compose.
  - by rewrite H.
Qed.







End CleaningFacts.

(** ** Labour-force rates *)

Section TasasFacts.
Import Tasas Spec Fixtures.

Lemma adultos_idempotent (df : list eph_row) : adultos (adultos df) = adultos df.
Proof.
  unfold adultos. induction df as [|r df IH]; simpl; [reflexivity|].
  destruct (ge (CH06 r) 18) eqn:E; simpl; rewrite ?E, IH; reflexivity.
Qed.

(** C3. For the 18+ cohort of any (region, year, quarter) group, the activity
    and employment rates are 0 when the population is 0, and the
    unemployment rate is 0 when employed plus unemployed is 0; every row of
    the quarterly table holds the rates so computed for its group. *)
Theorem zero_rates_on_zero_denominator :
  (forall grupo : list eph_row,
      (poblacion grupo = 0%nat ->
       TA (calcular_tasas grupo) = 0 /\ TE (calcular_tasas grupo) = 0)
      /\ (pea grupo = 0%nat -> TD (calcular_tasas grupo) = 0))
  /\ (forall df : list eph_row,
         Forall (fun row => snd row = calcular_tasas (grupo_tasas df (fst row)))
                (tasas_trimestrales df)).
Proof.
  split.
  - intros grupo. split.
    + intros H. unfold calcular_tasas; simpl. rewrite H. split; reflexivity.
    + intros H. unfold calcular_tasas; simpl. rewrite H. reflexivity.
  - intros df. unfold tasas_trimestrales, groupby. rewrite List.map_map.
    apply List.Forall_forall. intros row Hrow. apply List.in_map_iff in Hrow.
    destruct Hrow as (k & <- & _). reflexivity.
Qed.

(** The theorem at a group of minors (population 0) and at a group with one
    inactive adult (population 1, no employed, no unemployed). *)
Lemma zero_rates_on_zero_denominator_witness :
  (TA (calcular_tasas [persona (Some 1) (Some 15)]) = 0
   /\ TE (calcular_tasas [persona (Some 1) (Some 15)]) = 0)
  /\ TD (calcular_tasas [persona (Some 3) (Some 40)]) = 0.
Proof.
  split.
  - apply (proj1 (proj1 zero_rates_on_zero_denominator [persona (Some 1) (Some 15)])).
    reflexivity.
  - apply (proj2 (proj1 zero_rates_on_zero_denominator [persona (Some 3) (Some 40)])).
    reflexivity.
Defined.
End TasasFacts.

(** ** Branch classification *)

Section ClasificarFacts.
Import Ramas.

Lemma trunc_ge (k : Z) (c : Q) :
  (0 < k)%Z -> ((k <= trunc c)%Z <-> inject_Z k <= c).
Proof.
  intros Hk. destruct c as [n d]. unfold trunc, Qle; simpl.
  destruct (Z_lt_le_dec n 0) as [Hn|Hn].
  - assert (Hq : (Z.quot n (Z.pos d) <= 0)%Z).
    { replace n with (- (- n))%Z by lia. rewrite Z.quot_opp_l by lia.
      assert (0 <= Z.quot (- n) (Z.pos d))%Z by (apply Z.quot_pos; lia). lia. }
    split; intros H; [lia|]. exfalso.
    assert (0 < k * Z.pos d)%Z by lia. lia.
  - rewrite Z.quot_div_nonneg by lia.
    pose proof (Z.div_mod n (Z.pos d) ltac:(lia)) as Hdm.
    pose proof (Z.mod_pos_bound n (Z.pos d) ltac:(lia)) as Hb.
    split; intros H; nia.
Qed.

Lemma trunc_lt (k : Z) (c : Q) :
  (0 < k)%Z -> ((trunc c < k)%Z <-> c < inject_Z k).
Proof.
  intros Hk. pose proof (trunc_ge k c Hk) as [H1 H2]. split; intros H.
  - apply Qnot_le_lt. intros Hle. apply H2 in Hle. lia.
  - apply Qlt_not_le in H. destruct (Z_lt_le_dec (trunc c) k) as [?|Hge]; [assumption|].
    exfalso. apply H, H1, Hge.
Qed.

Lemma in_range_trunc (lo hi : Z) (c : Q) :
  (0 < lo)%Z -> (0 < hi)%Z ->
  (((lo <=? trunc c) && (trunc c <? hi))%Z = true
   <-> inject_Z lo <= c /\ c < inject_Z hi).
Proof.
  intros Hlo Hhi. rewrite andb_true_iff, Z.leb_le, Z.ltb_lt.
  rewrite (trunc_ge lo c Hlo), (trunc_lt hi c Hhi). reflexivity.
Qed.

(** C7. The branch ranges are half-open: a code is Industry exactly in
    [1500, 4000), Tourism exactly in [5000, 6000) or [9100, 9500), and
    unclassified otherwise or when missing; 4000 is not Industry, 5999 is
    Tourism, 6000 is not Tourism. *)
Theorem branch_ranges_half_open :
  (forall c : Q,
      _clasificar_rama (Some c) = Some Industria <-> 1500 <= c /\ c < 4000)
  /\ (forall c : Q,
         _clasificar_rama (Some c) = Some Turismo
         <-> (5000 <= c /\ c < 6000) \/ (9100 <= c /\ c < 9500))
  /\ (forall c : Q,
         _clasificar_rama (Some c) = None
         <-> ~ (1500 <= c /\ c < 4000) /\ ~ (5000 <= c /\ c < 6000)
             /\ ~ (9100 <= c /\ c < 9500))
  /\ _clasificar_rama NaN = None
  /\ _clasificar_rama (Some 4000) = None
  /\ _clasificar_rama (Some 5999) = Some Turismo
  /\ _clasificar_rama (Some 6000) = None.
Proof.
  assert (Hcase : forall c : Q,
             (1500 <= c /\ c < 4000 /\ _clasificar_rama (Some c) = Some Industria)
             \/ (5000 <= c /\ c < 6000 /\ _clasificar_rama (Some c) = Some Turismo)
             \/ (9100 <= c /\ c < 9500 /\ _clasificar_rama (Some c) = Some Turismo)
             \/ (~ (1500 <= c /\ c < 4000) /\ ~ (5000 <= c /\ c < 6000)
                 /\ ~ (9100 <= c /\ c < 9500) /\ _clasificar_rama (Some c) = None)).
  { intros c. unfold _clasificar_rama.
    pose proof (in_range_trunc 1500 4000 c ltac:(lia) ltac:(lia)) as H1.
    pose proof (in_range_trunc 5000 6000 c ltac:(lia) ltac:(lia)) as H2.
    pose proof (in_range_trunc 9100 9500 c ltac:(lia) ltac:(lia)) as H3.
    cbv zeta.
    destruct ((1500 <=? trunc c) && (trunc c <? 4000))%Z.
    { left. destruct H1 as [H1 _]. destruct (H1 eq_refl). auto. }
    destruct ((5000 <=? trunc c) && (trunc c <? 6000))%Z.
    { right; left. destruct H2 as [H2 _]. destruct (H2 eq_refl). auto. }
    destruct ((9100 <=? trunc c) && (trunc c <? 9500))%Z.
    { right; right; left. destruct H3 as [H3 _]. destruct (H3 eq_refl). auto. }
    right; right; right.
    repeat split; try reflexivity; intros H;
      [apply H1 in H | apply H2 in H | apply H3 in H]; discriminate. }
  assert (Hdisj : forall c : Q,
             (1500 <= c /\ c < 4000) ->
             ~ (5000 <= c /\ c < 6000) /\ ~ (9100 <= c /\ c < 9500)).
  { intros c [Ha Hb]. split; intros [Hc Hd].
    - apply (Qlt_irrefl c). eapply Qlt_le_trans; [exact Hb|].
      eapply Qle_trans; [|exact Hc]. discriminate.
    - apply (Qlt_irrefl c). eapply Qlt_le_trans; [exact Hb|].
      eapply Qle_trans; [|exact Hc]. discriminate. }
  split; [|split; [|split; [|split; [|split; [|split]]]]];
    try reflexivity; intros c; split.
  - intros H. destruct (Hcase c) as [(?&?&?)|[(?&?&E)|[(?&?&E)|(?&?&?&E)]]];
      try tauto; rewrite E in H; discriminate.
  - intros [Ha Hb].
    destruct (Hcase c) as [(?&?&E)|[(?&?&E)|[(?&?&E)|(N&?&?&E)]]];
      try assumption; destruct (Hdisj c (conj Ha Hb)); tauto.
  - intros H. destruct (Hcase c) as [(?&?&E)|[(?&?&E)|[(?&?&E)|(?&?&?&E)]]];
      try tauto; rewrite E in H; discriminate.
  - intros H. destruct (Hcase c) as [(Ha&Hb&E)|[(?&?&E)|[(?&?&E)|(?&?&?&E)]]];
      try assumption; try tauto. destruct (Hdisj c (conj Ha Hb)); tauto.
  - intros H. destruct (Hcase c) as [(?&?&E)|[(?&?&E)|[(?&?&E)|(?&?&?&E)]]];
      rewrite E in H; try discriminate; tauto.
  - intros (N1 & N2 & N3).
    destruct (Hcase c) as [(?&?&E)|[(?&?&E)|[(?&?&E)|(?&?&?&E)]]];
      try assumption; tauto.
Qed.
End ClasificarFacts.

(** ** Price deflator *)

Section DeflatorFacts.
Import Ingresos Spec Fixtures.

(** With one entry per period, selecting a period finds at most one entry. *)
Lemma filter_period_unique (f : ipc_row -> bool) (k : Z * Z) (l : list ipc_row) (e : ipc_row) :
  (forall e', f e' = true <-> periodo_ipc e' = k) ->
  List.NoDup (List.map periodo_ipc l) -> In e l -> periodo_ipc e = k ->
  List.filter f l = [e].
Proof. apply filter_key_unique. Qed.

Lemma filter_period_at_most_one (f : ipc_row -> bool) (k : Z * Z) (l : list ipc_row) :
  (forall e', f e' = true <-> periodo_ipc e' = k) ->
  List.NoDup (List.map periodo_ipc l) ->
  List.filter f l = [] \/ exists e, List.filter f l = [e].
Proof.
  intros Hf Hnd. destruct (List.filter f l) as [|e rest] eqn:E; [left; reflexivity|].
  right. exists e. rewrite <- E.
  assert (He : In e (List.filter f l)) by (rewrite E; left; reflexivity).
  apply filter_In in He. destruct He as [Hin Hfe].
  apply (filter_period_unique f k); try assumption. apply Hf. exact Hfe.
Qed.

Lemma same_period_iff (r : eph_row) (e : ipc_row) :
  same_period r e = true <-> periodo_ipc e = (ANO4 r, TRIMESTRE r).
Proof.
  unfold same_period, periodo_ipc. rewrite andb_true_iff, !Z.eqb_eq.
  split; [intros [-> ->]; reflexivity | intros H; inversion H; auto].
Qed.

Lemma is_base_iff (y q : Z) (e : ipc_row) :
  is_base y q e = true <-> periodo_ipc e = (y, q).
Proof.
  unfold is_base, periodo_ipc. rewrite andb_true_iff, !Z.eqb_eq.
  split; [intros [-> ->]; reflexivity | intros H; inversion H; auto].
Qed.

(** With one entry per period the left join keeps one row per record. *)
Lemma merge_left_records (df : list eph_row) (ipc_df : list ipc_row) :
  one_entry_per_period ipc_df ->
  List.map fst (merge_left df ipc_df) = df.
Proof.
  intros Hnd. unfold merge_left. induction df as [|r df IH]; [reflexivity|].
  cbn [flat_map]. rewrite List.map_app, IH. clear IH.
  destruct (filter_period_at_most_one (same_period r) (ANO4 r, TRIMESTRE r) ipc_df
              (same_period_iff r) Hnd) as [E|[e E]]; rewrite E; reflexivity.
Qed.

Lemma merge_left_index (df : list eph_row) (ipc_df : list ipc_row) (r : eph_row) (i : float) :
  In (r, i) (merge_left df ipc_df) ->
  (List.filter (same_period r) ipc_df = [] /\ i = NaN)
  \/ exists e, In e (List.filter (same_period r) ipc_df) /\ i = i_IPC e.
Proof.
  unfold merge_left. rewrite in_flat_map. intros (r' & _ & Hin).
  destruct (List.filter (same_period r') ipc_df) as [|e es] eqn:E.
  - destruct Hin as [Heq|[]]. inversion Heq; subst. left. split; [exact E|reflexivity].
  - apply in_map_iff in Hin. destruct Hin as (e' & Heq & Hin').
    inversion Heq; subst. right. exists e'. rewrite E. split; [exact Hin'|reflexivity].
Qed.

Lemma rebase_by_itself (p : float) (v : Q) :
  ~ v == 0 -> feq (fmul p (fdiv (Some v) (Some v))) p.
Proof.
  intros Hv. unfold fdiv.
  destruct (Qeq_bool v 0) eqn:E; [apply Qeq_bool_iff in E; contradiction|].
  destruct p as [x|]; simpl; [|exact I]. field. exact Hv.
Qed.

(** C5. Without an index entry for the base period the deflation raises
    (the lookup of the base index fails) and returns no table. *)
Theorem missing_base_index_raises
        (df_eph : list eph_row) (ipc_df : list ipc_row) (ano_base trimestre_base : Z) :
  (forall e, In e ipc_df -> ~ (i_ANO4 e = ano_base /\ i_TRIMESTRE e = trimestre_base)) ->
  deflactar_ingreso df_eph ipc_df ano_base trimestre_base = Raise IndexError
  /\ forall out, deflactar_ingreso df_eph ipc_df ano_base trimestre_base <> Ok out.
Proof.
  intros H.
  assert (E : List.filter (is_base ano_base trimestre_base) ipc_df = []).
  { apply filter_none. intros e He. destruct (is_base ano_base trimestre_base e) eqn:Eb;
      [|reflexivity].
    exfalso. apply (H e He). apply is_base_iff in Eb. inversion Eb. auto. }
  unfold deflactar_ingreso. rewrite E. split; [reflexivity|discriminate].
Qed.

(** The theorem at an index series that only knows 2024-T1, with base
    2025-T2. *)
Lemma missing_base_index_raises_witness :
  deflactar_ingreso [ocupado (Some 1000) (Some 2) NaN] [ipc_2024T1 (Some 100)] 2025 2
  = Raise IndexError
  /\ forall out,
      deflactar_ingreso [ocupado (Some 1000) (Some 2) NaN] [ipc_2024T1 (Some 100)] 2025 2
      <> Ok out.
Proof.
  apply (missing_base_index_raises
           [ocupado (Some 1000) (Some 2) NaN] [ipc_2024T1 (Some 100)] 2025 2).
  intros e [<-|[]] [H _]. simpl in H. lia.
Defined.

(** C4, as worded, fails: with an index of 0 at the base period the ratio
    index[base]/index[period] is 0/0, and the real income is NaN. *)
Lemma rebasing_identity_fails_on_zero_index :
  ~ rebasing_identity [ocupado (Some 1000) (Some 2) NaN] [ipc_2024T1 (Some 0)] 2024 1.
Proof.
  intros H.
  specialize (H _ eq_refl _ (or_introl eq_refl) eq_refl eq_refl).
  apply H. exists (ipc_2024T1 (Some 0)). split; [left; reflexivity|reflexivity].
Qed.

(** C4, amended. With one index entry per period and a non-zero index at the
    base period, deflation returns one row per record, and every record of
    the base period keeps its nominal income. *)
Theorem rebasing_identity_nonzero_index
        (df_eph : list eph_row) (ipc_df : list ipc_row)
        (ano_base trimestre_base : Z) (e : ipc_row) (v : Q) :
  one_entry_per_period ipc_df ->
  In e ipc_df -> i_ANO4 e = ano_base -> i_TRIMESTRE e = trimestre_base ->
  i_IPC e = Some v -> ~ v == 0 ->
  exists out,
    deflactar_ingreso df_eph ipc_df ano_base trimestre_base = Ok out
    /\ List.map eph out = df_eph
    /\ Forall (fun o => ANO4 (eph o) = ano_base -> TRIMESTRE (eph o) = trimestre_base ->
                        feq (INGRESO_REAL o) (P47T (eph o))) out.
Proof.
  intros Hnd Hin Hy Hq Hv Hnz.
  assert (Hk : periodo_ipc e = (ano_base, trimestre_base))
    by (unfold periodo_ipc; rewrite Hy, Hq; reflexivity).
  assert (Eb : List.filter (is_base ano_base trimestre_base) ipc_df = [e]).
  { apply (filter_period_unique _ (ano_base, trimestre_base)); try assumption.
    apply is_base_iff. }
  unfold deflactar_ingreso. rewrite Eb. eexists. split; [reflexivity|]. split.
  - rewrite map_map. simpl. rewrite <- (merge_left_records df_eph ipc_df Hnd) at 2.
    reflexivity.
  - apply List.Forall_forall. intros o Ho. apply List.in_map_iff in Ho.
    destruct Ho as ([r i] & <- & Hri). simpl. intros Hry Hrq.
    assert (Er : List.filter (same_period r) ipc_df = [e]).
    { apply (filter_period_unique _ (ANO4 r, TRIMESTRE r)); try assumption.
      - apply same_period_iff.
      - rewrite Hk, Hry, Hrq. reflexivity. }
    apply merge_left_index in Hri. rewrite Er in Hri.
    destruct Hri as [[Habs _]|(e' & [<-|[]] & ->)]; [discriminate|].
    rewrite Hv. apply rebase_by_itself. exact Hnz.
Qed.

(** The amended theorem at the specification's scenario: index 100 at
    2024-T1, base 2024-T1. *)
Lemma rebasing_identity_nonzero_index_witness :
  exists out,
    deflactar_ingreso
      [ocupado (Some 1000) (Some 2) NaN; ocupado (Some 3000) (Some 2) NaN]
      [ipc_2024T1 (Some 100)] 2024 1 = Ok out
    /\ List.map eph out
       = [ocupado (Some 1000) (Some 2) NaN; ocupado (Some 3000) (Some 2) NaN]
    /\ Forall (fun o => ANO4 (eph o) = 2024%Z -> TRIMESTRE (eph o) = 1%Z ->
                        feq (INGRESO_REAL o) (P47T (eph o))) out.
Proof.
  apply (rebasing_identity_nonzero_index
           [ocupado (Some 1000) (Some 2) NaN; ocupado (Some 3000) (Some 2) NaN]
           [ipc_2024T1 (Some 100)] 2024 1 (ipc_2024T1 (Some 100)) 100).
  - repeat constructor. simpl. tauto.
  - left; reflexivity.
  - reflexivity.
  - reflexivity.
  - reflexivity.
  - discriminate.
Defined.
End DeflatorFacts.

(** ** Weighted means *)

Section WeightedMeanFacts.
Import Ingresos GraficosIngresos Spec.

Lemma eligible_mask_map (t : list defl_row) :
  eligible_mask (List.map INGRESO_REAL t) (pesos t) = List.map elegible t.
Proof.
  unfold eligible_mask, pesos. rewrite combine_map, List.map_map. reflexivity.
Qed.

Lemma mask_index_map {A B : Type} (f : A -> B) (e : A -> bool) (l : list A) :
  mask_index (List.map f l) (List.map e l) = List.map f (List.filter e l).
Proof.
  unfold mask_index. induction l as [|a l IH]; simpl; [reflexivity|].
  destruct (e a); simpl; rewrite IH; reflexivity.
Qed.

Lemma elegibles_incomes (t : list defl_row) :
  List.map INGRESO_REAL (List.filter elegible t)
  = List.map (fun p => Some (fst p)) (elegibles t).
Proof.
  unfold elegibles, elegible. induction t as [|r t IH]; simpl; [reflexivity|].
  destruct (INGRESO_REAL r) as [x|] eqn:Ex; destruct (PONDERA (eph r)) as [w|] eqn:Ew;
    simpl; try exact IH.
  destruct (Qle_bool w 0); simpl; rewrite ?Ex, ?Ew, IH; reflexivity.
Qed.

Lemma elegibles_weights (t : list defl_row) :
  pesos (List.filter elegible t) = List.map (fun p => Some (snd p)) (elegibles t).
Proof.
  unfold pesos, elegibles, elegible. induction t as [|r t IH]; simpl; [reflexivity|].
  destruct (INGRESO_REAL r) as [x|] eqn:Ex; destruct (PONDERA (eph r)) as [w|] eqn:Ew;
    simpl; try exact IH.
  destruct (Qle_bool w 0); simpl; rewrite ?Ex, ?Ew, IH; reflexivity.
Qed.

Lemma elegibles_positive (t : list defl_row) :
  Forall (fun p => 0 < snd p) (elegibles t).
Proof.
  unfold elegibles. induction t as [|r t IH]; simpl; [constructor|].
  destruct (INGRESO_REAL r) as [x|]; destruct (PONDERA (eph r)) as [w|]; simpl;
    try exact IH.
  destruct (Qle_bool w 0) eqn:E; simpl; [exact IH|].
  constructor; [|exact IH]. simpl.
  apply Qnot_le_lt. intros H. apply Qle_bool_iff in H. congruence.
Qed.

Lemma fsum_products (e : list (Q * Q)) :
  fsum (mul_arrays (List.map (fun p => Some (fst p)) e) (List.map (fun p => Some (snd p)) e))
  = Some (sum_Q (List.map (fun p => fst p * snd p) e)).
Proof.
  unfold mul_arrays, fsum, sum_Q. rewrite combine_map, List.map_map.
  induction e as [|p e IH]; [reflexivity|].
  cbn [List.map fold_right]. rewrite IH. reflexivity.
Qed.

Lemma fsum_weights (e : list (Q * Q)) :
  fsum (List.map (fun p => Some (snd p)) e) = Some (sum_Q (List.map snd e)).
Proof.
  unfold fsum, sum_Q. induction e as [|p e IH]; [reflexivity|].
  cbn [List.map fold_right]. rewrite IH. reflexivity.
Qed.

Lemma sum_weights_positive (e : list (Q * Q)) :
  Forall (fun p => 0 < snd p) e -> e <> [] -> 0 < sum_Q (List.map snd e).
Proof.
  intros H. induction H as [|p e Hp He IH]; intros Hne; [congruence|].
  simpl. destruct e as [|p' e'].
  - simpl. rewrite Qplus_0_r. exact Hp.
  - assert (0 < sum_Q (List.map snd (p' :: e'))) by (apply IH; discriminate).
    rewrite <- (Qplus_0_r 0). apply Qplus_lt_le_compat; [exact Hp|].
    apply Qlt_le_weak. assumption.
Qed.

(** The quotient both code paths compute once the mask is not empty. *)
Lemma masked_quotient (t : list defl_row) :
  elegibles t <> [] ->
  let m := eligible_mask (List.map INGRESO_REAL t) (pesos t) in
  fdiv (fsum (mul_arrays (mask_index (List.map INGRESO_REAL t) m) (mask_index (pesos t) m)))
       (fsum (mask_index (pesos t) m))
  = weighted_mean t.
Proof.
  intros Hne. cbv zeta. rewrite eligible_mask_map.
  assert (Hw : mask_index (pesos t) (List.map elegible t) = pesos (List.filter elegible t))
    by (unfold pesos; apply mask_index_map).
  rewrite Hw, mask_index_map.
  rewrite elegibles_incomes, elegibles_weights, fsum_products, fsum_weights.
  unfold fdiv, weighted_mean.
  pose proof (sum_weights_positive _ (elegibles_positive t) Hne) as Hpos.
  destruct (Qeq_bool (sum_Q (List.map snd (elegibles t))) 0) eqn:E.
  - apply Qeq_bool_iff in E. rewrite E in Hpos. discriminate.
  - destruct (elegibles t); [congruence|reflexivity].
Qed.

Lemma filter_elegible_empty (t : list defl_row) :
  List.filter elegible t = [] <-> elegibles t = [].
Proof.
  pose proof (elegibles_incomes t) as H. split; intros E.
  - rewrite E in H. simpl in H. destruct (elegibles t); [reflexivity|discriminate].
  - rewrite E in H. simpl in H. destruct (List.filter elegible t); [reflexivity|discriminate].
Qed.

Lemma existsb_mask (t : list defl_row) :
  existsb (fun b => b) (List.map elegible t) = false <-> elegibles t = [].
Proof.
  rewrite <- filter_elegible_empty.
  induction t as [|r t IH]; simpl; [tauto|].
  destruct (elegible r); simpl; [split; discriminate|exact IH].
Qed.

Lemma count_mask (t : list defl_row) :
  length (List.filter (fun b => b) (List.map elegible t)) = 0%nat <-> elegibles t = [].
Proof.
  rewrite <- filter_elegible_empty.
  induction t as [|r t IH]; simpl; [tauto|].
  destruct (elegible r); simpl; [split; discriminate|exact IH].
Qed.

Lemma wmean_weighted_mean (t : list defl_row) :
  wmean (List.map INGRESO_REAL t) (List.map (fun r => PONDERA (eph r)) t)
  = weighted_mean t.
Proof.
  fold (pesos t). pose proof (masked_quotient t) as Hq. cbv zeta in Hq.
  unfold wmean. destruct (existsb _ _) eqn:E.
  - apply Hq. intros Hempty. rewrite eligible_mask_map in E.
    apply existsb_mask in Hempty. congruence.
  - rewrite eligible_mask_map in E. apply existsb_mask in E.
    unfold weighted_mean. rewrite E. reflexivity.
Qed.

Lemma media_ponderada_weighted_mean (t : list defl_row) :
  media_ponderada (List.map INGRESO_REAL t) (List.map (fun r => PONDERA (eph r)) t)
  = weighted_mean t.
Proof.
  fold (pesos t). pose proof (masked_quotient t) as Hq. cbv zeta in Hq.
  unfold media_ponderada. destruct (_ =? _)%nat eqn:E.
  - apply Nat.eqb_eq in E. rewrite eligible_mask_map in E. apply count_mask in E.
    unfold weighted_mean. rewrite E. reflexivity.
  - apply Hq. intros Hempty. apply Nat.eqb_neq in E. apply E.
    rewrite eligible_mask_map. apply count_mask. exact Hempty.
Qed.

Lemma univariado_grupo_aglo (aglo : Z) (periodo : string) (grupo : list defl_row) :
  u_AGLOMERADO (univariado_grupo aglo periodo grupo) = aglo.
Proof. unfold univariado_grupo. destruct (dfp_rep_x _ _); reflexivity. Qed.

Lemma univariado_grupo_periodo (aglo : Z) (periodo : string) (grupo : list defl_row) :
  u_PERIODO (univariado_grupo aglo periodo grupo) = periodo.
Proof. unfold univariado_grupo. destruct (dfp_rep_x _ _); reflexivity. Qed.

(** Every row of the summary is the loop body run on its group. *)
Lemma calcular_univariado_rows (df_ocup : list defl_row) :
  Forall (fun u => u = univariado_grupo (u_AGLOMERADO u) (u_PERIODO u)
                        (grupo_univariado df_ocup (u_AGLOMERADO u) (u_PERIODO u)))
         (calcular_univariado df_ocup).
Proof.
  unfold calcular_univariado, groupby. rewrite List.map_map.
  apply List.Forall_forall. intros u Hu. apply List.in_map_iff in Hu.
  destruct Hu as ([aglo periodo] & <- & _). cbn [fst snd].
  rewrite univariado_grupo_aglo, univariado_grupo_periodo. reflexivity.
Qed.

Lemma univariado_grupo_media (aglo : Z) (periodo : string) (grupo : list defl_row) :
  MEDIA (univariado_grupo aglo periodo grupo) = weighted_mean grupo.
Proof.
  unfold univariado_grupo. cbv zeta.
  destruct (dfp_rep_x _ _); apply media_ponderada_weighted_mean.
Qed.

(** C1. For every group, the weighted mean computed by [wmean] (general and
    quarterly tables) and by the univariate summary equals
    sum(x_i * w_i) / sum(w_i) over the records with income present and
    weight > 0, and is missing (NaN) exactly when no record is eligible;
    every row of the three tables carries that value for its group. *)
Theorem weighted_mean_over_eligible :
  (forall t : list defl_row,
      wmean (List.map INGRESO_REAL t) (List.map (fun r => PONDERA (eph r)) t)
      = weighted_mean t
      /\ media_ponderada (List.map INGRESO_REAL t)
                         (List.map (fun r => PONDERA (eph r)) t)
         = weighted_mean t
      /\ (weighted_mean t = NaN <-> elegibles t = []))
  /\ (forall (df : list defl_row) (target : option (list Z)),
         Forall (fun row => snd row = weighted_mean (grupo_aglomerado df target (fst row)))
                (ingreso_promedio_por_aglomerado df target))
  /\ (forall (df : list defl_row) (target : option (list Z)),
         Forall (fun row => snd row = weighted_mean (grupo_trimestral df target (fst row)))
                (ingreso_promedio_trimestral_por_aglomerado df target))
  /\ (forall df_ocup : list defl_row,
         Forall (fun u => MEDIA u
                          = weighted_mean
                              (grupo_univariado df_ocup (u_AGLOMERADO u) (u_PERIODO u)))
                (calcular_univariado df_ocup)).
Proof.
  split; [|split; [|split]].
  - intros t. split; [apply wmean_weighted_mean|].
    split; [apply media_ponderada_weighted_mean|].
    unfold weighted_mean. destruct (elegibles t); split; try reflexivity; discriminate.
  - intros df target. unfold ingreso_promedio_por_aglomerado, groupby. cbv zeta.
    rewrite List.map_map. apply List.Forall_forall. intros row Hrow.
    apply List.in_map_iff in Hrow. destruct Hrow as (k & <- & _). cbn [fst snd].
    apply wmean_weighted_mean.
  - intros df target. unfold ingreso_promedio_trimestral_por_aglomerado, groupby.
    cbv zeta. rewrite List.map_map. apply List.Forall_forall. intros row Hrow.
    apply List.in_map_iff in Hrow. destruct Hrow as (k & <- & _). cbn [fst snd].
    apply wmean_weighted_mean.
  - intros df_ocup. eapply List.Forall_impl; [|apply calcular_univariado_rows].
    simpl. intros u Hu. rewrite Hu at 1. apply univariado_grupo_media.
Qed.
End WeightedMeanFacts.

(** ** Cleanup for the income distribution *)

Section BoxplotFacts.
Import Ingresos Boxplots Spec Fixtures.

Lemma gt0_positive (a : float) : gt0 a = true <-> exists x, a = Some x /\ 0 < x.
Proof.
  destruct a as [x|]; simpl.
  - rewrite negb_true_iff. split.
    + intros H. exists x. split; [reflexivity|]. apply Qnot_le_lt. intros Hle.
      apply Qle_bool_iff in Hle. congruence.
    + intros (y & Hy & Hpos). inversion Hy; subst.
      destruct (Qle_bool y 0) eqn:E; [|reflexivity].
      apply Qle_bool_iff in E. exfalso. apply (Qlt_irrefl 0).
      eapply Qlt_le_trans; eassumption.
  - split; [discriminate|]. intros (x & Hx & _). discriminate.
Qed.

(** C6, as worded, fails: the age filter runs after the trimming, so a minor
    with a high income raises the threshold.  With adults at 100 and 200 and
    a minor at 1000 the code keeps both adults (threshold 992); filtering
    age first would keep only the first (threshold 199.5). *)
Lemma trimming_is_not_last_filter :
  limpiar_boxplot tabla_con_menor <> Ok (validity_then_trimming tabla_con_menor).
Proof. vm_compute. intros H. inversion H. Qed.

(** C6, amended. The positive-income and positive-weight filters run before
    the trimming and the 99.5th percentile is taken over the records that
    passed them, whatever their age; the age filter (when the table has
    CH06) runs last, after the trimming. *)
Theorem trimming_after_income_and_weight (df : frame) :
  posibles df <> [] ->
  limpiar_boxplot df
  = Ok (List.filter (adult_if_known df)
          (trim_outliers (995 # 1000) (positive_income_and_weight df)))
  /\ Forall (fun r => (exists x, INGRESO_REAL r = Some x /\ 0 < x)
                      /\ (exists w, PONDERA (eph r) = Some w /\ 0 < w))
            (positive_income_and_weight df).
Proof.
  intros Hcol. split.
  - unfold limpiar_boxplot. destruct (posibles df) as [|c cs]; [congruence|].
    cbv zeta.
    rewrite (filter_filter_andb (fun r => gt0 (INGRESO_REAL r))
               (fun r => gt0 (PONDERA (eph r))) (rows df)).
    fold (positive_income_and_weight df).
    fold (incomes (positive_income_and_weight df)).
    fold (trim_outliers (995 # 1000) (positive_income_and_weight df)).
    unfold adult_if_known. destruct (has_column "CH06" df); [reflexivity|].
    rewrite filter_all. reflexivity.
  - apply List.Forall_forall. intros r Hr. unfold positive_income_and_weight in Hr.
    apply filter_In in Hr. destruct Hr as [_ Hr]. apply andb_true_iff in Hr.
    destruct Hr as [H1 H2]. split; apply gt0_positive; assumption.
Qed.

(** The amended theorem at the table with a minor. *)
Lemma trimming_after_income_and_weight_witness :
  limpiar_boxplot tabla_con_menor
  = Ok (List.filter (adult_if_known tabla_con_menor)
          (trim_outliers (995 # 1000) (positive_income_and_weight tabla_con_menor)))
  /\ Forall (fun r => (exists x, INGRESO_REAL r = Some x /\ 0 < x)
                      /\ (exists w, PONDERA (eph r) = Some w /\ 0 < w))
            (positive_income_and_weight tabla_con_menor).
Proof.
  apply (trimming_after_income_and_weight tabla_con_menor).
  vm_compute. discriminate.
Defined.
End BoxplotFacts.

(** ** Order statistics *)

Section StatsFacts.
Import Stats.

Lemma insert_sorted_In (x y : Q) (l : list Q) :
  In y (insert_sorted x l) <-> y = x \/ In y l.
Proof.
  induction l as [|z l IH]; simpl; [intuition congruence|].
  destruct (Qle_bool x z); simpl; [intuition congruence|].
  rewrite IH. intuition congruence.
Qed.

Lemma insert_sorted_length (x : Q) (l : list Q) :
  length (insert_sorted x l) = S (length l).
Proof.
  induction l as [|z l IH]; simpl; [reflexivity|].
  destruct (Qle_bool x z); simpl; [reflexivity|]. rewrite IH. reflexivity.
Qed.

Lemma insert_sorted_sorted (x : Q) (l : list Q) :
  StronglySorted Qle l -> StronglySorted Qle (insert_sorted x l).
Proof.
  induction 1 as [|z l Hs IH Hall]; simpl.
  - constructor; constructor.
  - destruct (Qle_bool x z) eqn:E.
    + apply Qle_bool_iff in E. constructor; [constructor; assumption|].
      constructor; [exact E|].
      apply List.Forall_forall. intros y Hy.
      apply Qle_trans with z; [exact E|].
      rewrite List.Forall_forall in Hall. apply Hall. exact Hy.
    + assert (Hzx : z <= x).
      { apply Qlt_le_weak. apply Qnot_le_lt. intros H.
        apply Qle_bool_iff in H. congruence. }
      constructor; [exact IH|].
      apply List.Forall_forall. intros y Hy. apply insert_sorted_In in Hy.
      destruct Hy as [->|Hy]; [exact Hzx|].
      rewrite List.Forall_forall in Hall. apply Hall. exact Hy.
Qed.

Lemma sort_sorted (l : list Q) : StronglySorted Qle (sort l).
Proof.
  unfold sort. induction l as [|x l IH]; simpl; [constructor|].
  apply insert_sorted_sorted. exact IH.
Qed.

Lemma sort_length (l : list Q) : length (sort l) = length l.
Proof.
  unfold sort. induction l as [|x l IH]; simpl; [reflexivity|].
  rewrite insert_sorted_length, IH. reflexivity.
Qed.

(** In a sorted array the order statistics grow with the rank. *)
Lemma sorted_nth (s : list Q) :
  StronglySorted Qle s ->
  forall i j : nat, (i <= j)%nat -> (j < length s)%nat -> nth i s 0 <= nth j s 0.
Proof.
  induction 1 as [|z l Hs IH Hall]; intros i j Hij Hj; simpl in Hj; [lia|].
  destruct i as [|i]; destruct j as [|j]; simpl; try lia.
  - apply Qle_refl.
  - rewrite List.Forall_forall in Hall. apply Hall. apply nth_In. lia.
  - apply IH; lia.
Qed.

Lemma inject_Z_succ (z : Z) : inject_Z (z + 1) == inject_Z z + 1.
Proof. rewrite inject_Z_plus. reflexivity. Qed.

Lemma inject_Z_pred (z : Z) : inject_Z (z - 1) == inject_Z z - 1.
Proof. unfold Z.sub. rewrite inject_Z_plus. reflexivity. Qed.

Lemma Qfloor_unique (p : Q) (z : Z) :
  inject_Z z <= p -> p < inject_Z (z + 1) -> Qfloor p = z.
Proof.
  intros Hlo Hhi.
  assert (H1 : (z <= Qfloor p)%Z).
  { rewrite <- (Qfloor_Z z). apply Qfloor_resp_le. exact Hlo. }
  assert (H2 : (Qfloor p < z + 1)%Z).
  { rewrite Zlt_Qlt. eapply Qle_lt_trans; [apply Qfloor_le|exact Hhi]. }
  lia.
Qed.

Section Interpolation.
Variable s : list Q.
Hypothesis s_sorted : StronglySorted Qle s.
Hypothesis s_not_empty : (0 < length s)%nat.

Let N : Q := inject_Z (Z.of_nat (length s)).

Lemma position_floor (p : Q) :
  0 <= p -> p <= N - 1 -> (0 <= Qfloor p <= Z.of_nat (length s) - 1)%Z.
Proof.
  intros H0 H1. split.
  - change 0%Z with (Qfloor 0). apply Qfloor_resp_le. exact H0.
  - assert (H : (Qfloor p < Z.of_nat (length s))%Z); [|lia].
    rewrite Zlt_Qlt. eapply Qle_lt_trans; [apply Qfloor_le|].
    fold N. lra.
Qed.

Lemma position_fraction (p : Q) :
  0 <= p - inject_Z (Qfloor p) /\ p - inject_Z (Qfloor p) < 1.
Proof.
  pose proof (Qfloor_le p) as H1. pose proof (Qlt_floor p) as H2.
  rewrite inject_Z_succ in H2. split; lra.
Qed.

Lemma interpolate_bounds (p : Q) :
  0 <= p -> p <= N - 1 ->
  nth (Z.to_nat (Qfloor p)) s 0 <= interpolate s p
  /\ interpolate s p
     <= nth (Z.to_nat (Z.min (Qfloor p + 1) (Z.of_nat (length s) - 1))) s 0.
Proof.
  intros H0 H1. unfold interpolate. cbv zeta.
  pose proof (position_floor p H0 H1) as Hlo.
  pose proof (position_fraction p) as [Hf0 Hf1].
  set (a := nth (Z.to_nat (Qfloor p)) s 0).
  set (b := nth (Z.to_nat (Z.min (Qfloor p + 1) (Z.of_nat (length s) - 1))) s 0).
  set (f := p - inject_Z (Qfloor p)) in *.
  assert (Hab : a <= b) by (apply sorted_nth; [exact s_sorted|lia|lia]).
  split; nra.
Qed.

Lemma interpolate_mono (p1 p2 : Q) :
  0 <= p1 -> p1 <= p2 -> p2 <= N - 1 -> interpolate s p1 <= interpolate s p2.
Proof.
  intros H0 H12 H2.
  assert (H1 : p1 <= N - 1) by lra. assert (H0' : 0 <= p2) by lra.
  pose proof (position_floor p1 H0 H1) as Hlo1.
  pose proof (position_floor p2 H0' H2) as Hlo2.
  pose proof (Qfloor_resp_le p1 p2 H12) as Hfl.
  destruct (Z.eq_dec (Qfloor p1) (Qfloor p2)) as [E|Hne].
  - unfold interpolate. cbv zeta. rewrite E.
    set (a := nth (Z.to_nat (Qfloor p2)) s 0).
    set (b := nth (Z.to_nat (Z.min (Qfloor p2 + 1) (Z.of_nat (length s) - 1))) s 0).
    assert (Hab : a <= b) by (apply sorted_nth; [exact s_sorted|lia|lia]).
    nra.
  - destruct (interpolate_bounds p1 H0 H1) as [_ Hup].
    destruct (interpolate_bounds p2 H0' H2) as [Hdown _].
    eapply Qle_trans; [exact Hup|]. eapply Qle_trans; [|exact Hdown].
    apply sorted_nth; [exact s_sorted|lia|lia].
Qed.
End Interpolation.

Lemma half_even (k : nat) : ((2 * k) / 2 = k)%nat.
Proof. rewrite Nat.mul_comm. apply Nat.div_mul. discriminate. Qed.

Lemma half_odd (k : nat) : ((2 * k + 1) / 2 = k)%nat.
Proof.
  rewrite (Nat.mul_comm 2 k), Nat.div_add_l by discriminate.
  change (1 / 2)%nat with 0%nat. lia.
Qed.

Lemma median_value (xs : list Q) :
  xs <> [] ->
  median xs
  = if Nat.even (length xs)
    then Some ((nth (length xs / 2 - 1) (sort xs) 0 + nth (length xs / 2) (sort xs) 0) / 2)
    else Some (nth (length xs / 2) (sort xs) 0).
Proof. destruct xs; [congruence|reflexivity]. Qed.

(** The median is the interpolated order statistic of rank (n - 1) / 2. *)
Lemma median_interpolate (xs : list Q) (m : Q) :
  median xs = Some m ->
  m == interpolate (sort xs) ((1 # 2) * (inject_Z (Z.of_nat (length xs)) - 1)).
Proof.
  intros H.
  assert (Hne : xs <> []) by (intros ->; discriminate).
  rewrite (median_value xs Hne) in H.
  assert (Hlen : length (sort xs) = length xs) by apply sort_length.
  assert (Hn : (0 < length xs)%nat) by (destruct xs; [congruence|simpl; lia]).
  revert H Hlen Hn. generalize (sort xs) as l. generalize (length xs) as n.
  intros n l H Hlen Hn.
  set (pos := (1 # 2) * (inject_Z (Z.of_nat n) - 1)).
  revert H.
  destruct (Nat.even n) eqn:E; intros H; injection H as <-;
    change (fst (Nat.divmod n 1 0 1)) with (n / 2)%nat.
  - apply Nat.even_spec in E. destruct E as [k Hk].
    assert (Hk2 : (n / 2 = k)%nat) by (rewrite Hk; apply half_even).
    assert (Hpos : pos == inject_Z (Z.of_nat k) - (1 # 2)).
    { unfold pos. rewrite Hk, Nat2Z.inj_mul, inject_Z_mult.
      change (inject_Z (Z.of_nat 2)) with 2. field. }
    assert (Hfl : Qfloor pos = (Z.of_nat k - 1)%Z).
    { apply Qfloor_unique.
      - rewrite Hpos, inject_Z_pred. lra.
      - rewrite Hpos. replace (Z.of_nat k - 1 + 1)%Z with (Z.of_nat k) by lia. lra. }
    unfold interpolate. cbv zeta. rewrite Hlen, Hfl, Hk2.
    replace (Z.to_nat (Z.of_nat k - 1)) with (k - 1)%nat by lia.
    replace (Z.to_nat (Z.min (Z.of_nat k - 1 + 1) (Z.of_nat n - 1))) with k by lia.
    rewrite Hpos, inject_Z_pred. field.
  - assert (Ho : Nat.odd n = true) by (unfold Nat.odd; rewrite E; reflexivity).
    apply Nat.odd_spec in Ho. destruct Ho as [k Hk].
    assert (Hk2 : (n / 2 = k)%nat) by (rewrite Hk; apply half_odd).
    assert (Hpos : pos == inject_Z (Z.of_nat k)).
    { unfold pos. rewrite Hk, Nat2Z.inj_add, Nat2Z.inj_mul, inject_Z_plus, inject_Z_mult.
      change (inject_Z (Z.of_nat 2)) with 2. change (inject_Z (Z.of_nat 1)) with 1.
      field. }
    assert (Hfl : Qfloor pos = Z.of_nat k).
    { apply Qfloor_unique; rewrite Hpos; [lra|].
      rewrite inject_Z_succ. lra. }
    unfold interpolate. cbv zeta. rewrite Hlen, Hfl, Hk2, Nat2Z.id.
    rewrite Hpos. ring.
Qed.

(** The quartiles of a non-empty series are ordered around its median. *)
Lemma quartiles_ordered (xs : list Q) :
  xs <> [] ->
  exists a m b : Q,
    quantile xs (25 # 100) = Some a /\ median xs = Some m
    /\ quantile xs (75 # 100) = Some b /\ a <= m /\ m <= b.
Proof.
  intros Hne.
  assert (Hn : (0 < length xs)%nat) by (destruct xs; [congruence|simpl; lia]).
  assert (Hm : exists m, median xs = Some m).
  { unfold median. destruct xs; [congruence|].
    destruct (Nat.even _); eexists; reflexivity. }
  destruct Hm as [m Hm].
  pose proof (median_interpolate xs m Hm) as Hmi.
  exists (interpolate (sort xs) ((25 # 100) * (inject_Z (Z.of_nat (length xs)) - 1))), m,
    (interpolate (sort xs) ((75 # 100) * (inject_Z (Z.of_nat (length xs)) - 1))).
  assert (HN : 1 <= inject_Z (Z.of_nat (length xs))).
  { change 1 with (inject_Z 1). rewrite <- Zle_Qle. lia. }
  assert (Hs : (0 < length (sort xs))%nat) by (rewrite sort_length; exact Hn).
  split; [destruct xs; [congruence|reflexivity]|].
  split; [exact Hm|].
  split; [destruct xs; [congruence|reflexivity]|].
  rewrite Hmi. split; apply interpolate_mono; try apply sort_sorted; try exact Hs;
    rewrite ?sort_length; lra.
Qed.
End StatsFacts.

(** ** Univariate income summary *)

Section UnivariadoFacts.
Import Ingresos GraficosIngresos Spec Fixtures.

Lemma dropna_rows_cons (r : defl_row) (t : list defl_row) (s : nat) :
  List.filter peso_positivo
    (dropna (combine (seq s (length (List.map INGRESO_REAL (r :: t))))
                     (combine (List.map INGRESO_REAL (r :: t)) (pesos (r :: t)))))
  = match INGRESO_REAL r, PONDERA (eph r) with
    | Some x, Some w => if Qle_bool w 0 then [] else [(s, (x, w))]
    | _, _ => []
    end
    ++ List.filter peso_positivo
         (dropna (combine (seq (S s) (length (List.map INGRESO_REAL t)))
                          (combine (List.map INGRESO_REAL t) (pesos t)))).
Proof.
  unfold dropna. cbn [List.map pesos length seq combine flat_map fst snd].
  rewrite List.filter_app. f_equal.
  destruct (INGRESO_REAL r) as [x|]; destruct (PONDERA (eph r)) as [w|]; try reflexivity.
  unfold peso_positivo. simpl. destruct (Qle_bool w 0); reflexivity.
Qed.

(** The labelled rows that survive [dropna] and [w > 0]: their values are
    the eligible records, and their labels are distinct. *)
Lemma dropna_rows (t : list defl_row) (s : nat) :
  let dfp :=
    List.filter peso_positivo
      (dropna (combine (seq s (length (List.map INGRESO_REAL t)))
                       (combine (List.map INGRESO_REAL t) (pesos t)))) in
  List.map snd dfp = elegibles t
  /\ List.NoDup (List.map fst dfp)
  /\ Forall (fun l => (s <= l)%nat) (List.map fst dfp).
Proof.
  revert s. induction t as [|r t IH]; intros s; cbv zeta.
  - simpl. repeat split; constructor.
  - rewrite dropna_rows_cons.
    specialize (IH (S s)). cbv zeta in IH. revert IH.
    generalize (List.filter peso_positivo
                  (dropna (combine (seq (S s) (length (List.map INGRESO_REAL t)))
                                   (combine (List.map INGRESO_REAL t) (pesos t))))).
    intros dfp (IH1 & IH2 & IH3).
    assert (IH3' : Forall (fun l => (s <= l)%nat) (List.map fst dfp)).
    { eapply List.Forall_impl; [|exact IH3]. simpl. intros; lia. }
    unfold elegibles. cbn [flat_map]. fold (elegibles t).
    destruct (INGRESO_REAL r) as [x|]; destruct (PONDERA (eph r)) as [w|];
      try (split; [exact IH1|split; [exact IH2|exact IH3']]).
    destruct (Qle_bool w 0);
      try (split; [exact IH1|split; [exact IH2|exact IH3']]).
    cbn [app List.map fst snd].
    split; [f_equal; exact IH1|]. split.
    + constructor; [|exact IH2]. intros Hin.
      rewrite List.Forall_forall in IH3. specialize (IH3 s Hin). lia.
    + constructor; [lia|exact IH3'].
Qed.

Lemma loc_repeat (dfp : list (nat * (Q * Q))) (p : nat * (Q * Q)) (n : nat) :
  List.filter (fun q => Nat.eqb (fst q) (fst p)) dfp = [p] ->
  loc dfp (repeat (fst p) n) = repeat p n.
Proof.
  intros H. unfold loc. induction n as [|n IH]; simpl; [reflexivity|].
  rewrite H, IH. reflexivity.
Qed.

(** Selecting by repeated labels repeats the rows, when labels are distinct. *)
Lemma loc_index_repeat (dfp : list (nat * (Q * Q))) :
  List.NoDup (List.map fst dfp) ->
  loc dfp (index_repeat dfp)
  = flat_map (fun p => repeat p (Z.to_nat (trunc (snd (snd p))))) dfp.
Proof.
  intros Hnd.
  assert (H : forall sub, (forall p, In p sub -> In p dfp) ->
                          loc dfp (index_repeat sub)
                          = flat_map (fun p => repeat p (Z.to_nat (trunc (snd (snd p))))) sub).
  { induction sub as [|p sub IH]; intros Hsub; [reflexivity|].
    unfold index_repeat, loc in *. cbn [flat_map]. rewrite flat_map_app.
    rewrite IH by (intros q Hq; apply Hsub; right; exact Hq).
    f_equal. apply (loc_repeat dfp p).
    apply (filter_key_unique fst _ (fst p)); try assumption.
    - intros a. apply Nat.eqb_eq.
    - apply Hsub. left; reflexivity.
    - reflexivity. }
  apply H. auto.
Qed.

Lemma map_flat_map_repeat {A B : Type} (f : A -> B) (n : A -> nat) (l : list A) :
  List.map f (flat_map (fun p => repeat p (n p)) l)
  = flat_map (fun p => repeat (f p) (n p)) l.
Proof.
  induction l as [|a l IH]; [reflexivity|].
  cbn [flat_map]. rewrite List.map_app, IH, List.map_repeat. reflexivity.
Qed.

Lemma flat_map_map_list {A B C : Type} (h : A -> B) (g : B -> list C) (l : list A) :
  flat_map g (List.map h l) = flat_map (fun a => g (h a)) l.
Proof. induction l as [|a l IH]; simpl; [reflexivity|]. rewrite IH. reflexivity. Qed.

(** The expanded income column is the weight-as-repetition expansion with
    truncated weights; there is none when no record is eligible. *)
Lemma dfp_rep_x_expansion (t : list defl_row) :
  dfp_rep_x (List.map INGRESO_REAL t) (pesos t)
  = match elegibles t with
    | [] => None
    | _ => Some (expansion trunc t)
    end.
Proof.
  unfold dfp_rep_x, dropna_xw. cbv zeta.
  destruct (dropna_rows t 0) as (H1 & H2 & _). revert H1 H2.
  set (dfp := List.filter _ _). intros H1 H2.
  assert (Hexp : List.map (fun p : nat * (Q * Q) => fst (snd p))
                          (loc dfp (index_repeat dfp)) = expansion trunc t).
  { rewrite (loc_index_repeat dfp H2).
    rewrite (map_flat_map_repeat (fun p : nat * (Q * Q) => fst (snd p))
               (fun p => Z.to_nat (trunc (snd (snd p))))).
    unfold expansion. rewrite <- H1, flat_map_map_list. reflexivity. }
  rewrite Hexp. rewrite <- H1. destruct dfp; reflexivity.
Qed.

Lemma cuantiles_univariado_grupo (aglo : Z) (periodo : string) (grupo : list defl_row) :
  cuantiles (univariado_grupo aglo periodo grupo) = quantiles_by_repetition trunc grupo.
Proof.
  unfold univariado_grupo, cuantiles, quantiles_by_repetition.
  fold (pesos grupo). rewrite dfp_rep_x_expansion.
  destruct (elegibles grupo) eqn:E; [|reflexivity].
  unfold expansion. rewrite E. reflexivity.
Qed.

(** C2, as worded, fails: the weights are truncated, not rounded.  With
    incomes 1 and 3 and weights 1.6 and 1 the code expands to {1, 3}
    (median 2); rounding would expand to {1, 1, 3} (median 1). *)
Lemma weights_are_not_rounded :
  ~ same_quantiles
      (cuantiles (univariado_grupo 31 "2024-T1" grupo_peso_fraccionario))
      (quantiles_by_repetition round_half_even grupo_peso_fraccionario).
Proof. intros [H _]. vm_compute in H. discriminate. Qed.

(** C2, amended. For every (region, period) group the median, Q25 and Q75
    are pandas' median and (linearly interpolated) quantiles of the multiset
    in which every eligible record (income present, weight > 0) is repeated
    int(w_i) times, the weight truncated to an integer. *)
Theorem quantiles_by_truncated_repetition :
  (forall (aglo : Z) (periodo : string) (grupo : list defl_row),
      cuantiles (univariado_grupo aglo periodo grupo)
      = quantiles_by_repetition trunc grupo)
  /\ (forall df_ocup : list defl_row,
         Forall (fun u => cuantiles u
                          = quantiles_by_repetition trunc
                              (grupo_univariado df_ocup (u_AGLOMERADO u) (u_PERIODO u)))
                (calcular_univariado df_ocup)).
Proof.
  split; [exact cuantiles_univariado_grupo|].
  intros df_ocup. eapply List.Forall_impl; [|apply calcular_univariado_rows].
  simpl. intros u Hu. rewrite Hu at 1. apply cuantiles_univariado_grupo.
Qed.
End UnivariadoFacts.

(** ** Grouping *)

Section GroupByFacts.
Context {A K : Type}.
Variable key : A -> K.
Variable keqb : K -> K -> bool.
Variable kleb : K -> K -> bool.
Hypothesis keqb_eq : forall a b, keqb a b = true <-> a = b.

Lemma insert_key_In (k k' : K) (ks : list K) :
  In k (insert_key kleb k' ks) <-> k = k' \/ In k ks.
Proof.
  induction ks as [|k0 ks IH]; simpl; [intuition congruence|].
  destruct (kleb k' k0); simpl; [intuition congruence|].
  rewrite IH. intuition congruence.
Qed.

Lemma unique_keys_In (k : K) (ks : list K) :
  In k (unique_keys keqb ks) <-> In k ks.
Proof.
  induction ks as [|k0 ks IH]; simpl; [tauto|].
  destruct (existsb (keqb k0) ks) eqn:E; simpl; rewrite IH; [|intuition congruence].
  split; [tauto|]. intros [->|H]; [|exact H].
  apply existsb_exists in E. destruct E as (k1 & Hin & Heq).
  apply keqb_eq in Heq. subst k1. exact Hin.
Qed.

(** The keys of the groups are the keys of the rows. *)
Lemma group_keys_In (k : K) (rows : list A) :
  In k (group_keys key keqb kleb rows) <-> exists r, In r rows /\ key r = k.
Proof.
  unfold group_keys.
  assert (H : forall ks, In k (fold_right (insert_key kleb) [] ks) <-> In k ks).
  { induction ks as [|k0 ks IH]; simpl; [tauto|].
    rewrite insert_key_In, IH. intuition congruence. }
  rewrite H, unique_keys_In, List.in_map_iff.
  split; intros (r & H1 & H2); exists r; tauto.
Qed.

(** The groups: one per key of the table, holding the rows of that key. *)
Lemma groupby_In (k : K) (g : list A) (rows : list A) :
  In (k, g) (groupby key keqb kleb rows)
  <-> (exists r, In r rows /\ key r = k) /\ g = group_rows key keqb k rows.
Proof.
  unfold groupby. rewrite List.in_map_iff. split.
  - intros (k' & Heq & Hin). inversion Heq; subst.
    split; [apply group_keys_In; exact Hin|reflexivity].
  - intros [Hex ->]. exists k. split; [reflexivity|]. apply group_keys_In. exact Hex.
Qed.
End GroupByFacts.

(** ** Branch participation *)

Section ParticipacionFacts.
Import Ingresos Ramas Spec Fixtures.

Abbreviation key2 :=
  (fun r : eph_row * option rama => (AGLOMERADO (fst r), ANO4 (fst r))).
Abbreviation key3 :=
  (fun r : eph_row * rama => (AGLOMERADO (fst r), ANO4 (fst r), snd r)).
Abbreviation peso_total l k :=
  (nansum (List.map (fun r : eph_row * option rama => PONDERA (fst r))
                    (group_rows key2 eqb_ZZ k l))).
Abbreviation peso_rama l k :=
  (nansum (List.map (fun r : eph_row * rama => PONDERA (fst r))
                    (group_rows key3 eqb_ZZr k (df_ocup_rama l)))).

Lemma eqb_ZZ_eq (a b : Z * Z) : eqb_ZZ a b = true <-> a = b.
Proof.
  destruct a as [a1 a2], b as [b1 b2]. unfold eqb_ZZ; simpl.
  rewrite andb_true_iff, !Z.eqb_eq. split; [intros [-> ->]; reflexivity|].
  intros H; inversion H; auto.
Qed.

Lemma eqb_rama_eq (a b : rama) : eqb_rama a b = true <-> a = b.
Proof. destruct a, b; simpl; split; congruence. Qed.

Lemma eqb_ZZr_eq (a b : Z * Z * rama) : eqb_ZZr a b = true <-> a = b.
Proof.
  destruct a as [a1 a2], b as [b1 b2]. unfold eqb_ZZr; simpl.
  rewrite andb_true_iff, eqb_ZZ_eq, eqb_rama_eq. split; [intros [-> ->]; reflexivity|].
  intros H; inversion H; auto.
Qed.

Lemma ocup_total_In (l : list (eph_row * option rama)) (k : Z * Z) (s : Q) :
  In (k, s) (ocup_total l)
  <-> (exists r, In r l /\ key2 r = k) /\ s = peso_total l k.
Proof.
  unfold ocup_total. rewrite List.in_map_iff. split.
  - intros ([k' g] & Heq & Hin). simpl in Heq. inversion Heq; subst.
    apply (groupby_In _ _ _ eqb_ZZ_eq) in Hin. destruct Hin as [Hex ->].
    split; [exact Hex|reflexivity].
  - intros [Hex ->]. exists (k, group_rows key2 eqb_ZZ k l). split; [reflexivity|].
    apply (groupby_In _ _ _ eqb_ZZ_eq). split; [exact Hex|reflexivity].
Qed.

Lemma num_In (l : list (eph_row * option rama)) (k : Z * Z * rama) (s : Q) :
  In (k, s) (num l)
  <-> (exists r, In r (df_ocup_rama l) /\ key3 r = k) /\ s = peso_rama l k.
Proof.
  unfold num. rewrite List.in_map_iff. split.
  - intros ([k' g] & Heq & Hin). simpl in Heq. inversion Heq; subst.
    apply (groupby_In _ _ _ eqb_ZZr_eq) in Hin. destruct Hin as [Hex ->].
    split; [exact Hex|reflexivity].
  - intros [Hex ->].
    exists (k, group_rows key3 eqb_ZZr k (df_ocup_rama l)). split; [reflexivity|].
    apply (groupby_In _ _ _ eqb_ZZr_eq). split; [exact Hex|reflexivity].
Qed.

Lemma df_ocup_rama_In (l : list (eph_row * option rama)) (e : eph_row) (b : rama) :
  In (e, b) (df_ocup_rama l) <-> In (e, Some b) l.
Proof.
  unfold df_ocup_rama. rewrite in_flat_map. split.
  - intros ([e' o] & Hin & H). simpl in H. destruct o as [b'|]; [|destruct H].
    destruct H as [H|[]]. inversion H; subst. exact Hin.
  - intros Hin. exists (e, Some b). split; [exact Hin|left; reflexivity].
Qed.

Lemma merge_num_total_In (n : list (Z * Z * rama * Q)) (t : list (Z * Z * Q))
      (nr : Z * Z * rama * Q) (tot : float) :
  In (nr, tot) (merge_num_total n t)
  <-> In nr n
      /\ ((List.filter (fun tr => eqb_ZZ (fst (fst nr)) (fst tr)) t = [] /\ tot = NaN)
          \/ exists tr, In tr t /\ fst tr = fst (fst nr) /\ tot = Some (snd tr)).
Proof.
  unfold merge_num_total. rewrite in_flat_map. split.
  - intros (nr' & Hin & H).
    destruct (List.filter (fun tr => eqb_ZZ (fst (fst nr')) (fst tr)) t) as [|tr ts] eqn:E.
    + destruct H as [H|[]]. inversion H; subst. split; [exact Hin|]. left. auto.
    + apply List.in_map_iff in H. destruct H as (tr' & Heq & Hin').
      inversion Heq; subst. split; [exact Hin|]. right. exists tr'.
      rewrite <- E in Hin'. apply filter_In in Hin'. destruct Hin' as [H1 H2].
      apply eqb_ZZ_eq in H2. auto.
  - intros [Hin H]. exists nr. split; [exact Hin|].
    destruct H as [[E ->]|(tr & Hin' & Hk & ->)].
    + rewrite E. left; reflexivity.
    + assert (Hf : In tr (List.filter (fun tr => eqb_ZZ (fst (fst nr)) (fst tr)) t)).
      { apply filter_In. split; [exact Hin'|]. apply eqb_ZZ_eq. auto. }
      destruct (List.filter _ t) as [|tr0 ts]; [destruct Hf|].
      apply List.in_map_iff. exists tr. auto.
Qed.

(** What a row of the participation table holds. *)
Lemma participacion_In (df : list eph_row) (aglos : option (list Z)) (edad_min : Z)
      (p : part_row) :
  let l := ocupados_con_rama df aglos edad_min in
  In p (participacion_empleo_por_rama df aglos edad_min)
  <-> (exists e, In (e, Some (RAMA p)) l
                 /\ AGLOMERADO e = p_AGLOMERADO p /\ ANO4 e = p_ANO4 p)
      /\ OCUPADOS_RAMA p = peso_rama l (p_AGLOMERADO p, p_ANO4 p, RAMA p)
      /\ OCUPADOS_TOTALES p = Some (peso_total l (p_AGLOMERADO p, p_ANO4 p))
      /\ PART_RAMA p = fdiv (Some (OCUPADOS_RAMA p)) (OCUPADOS_TOTALES p).
Proof.
  cbv zeta. unfold participacion_empleo_por_rama.
  set (l := ocupados_con_rama df aglos edad_min). cbv zeta.
  rewrite List.in_map_iff. split.
  - intros ([[[[a y] b] s] tot] & <- & Hin). cbn [fst snd p_AGLOMERADO p_ANO4 RAMA
      OCUPADOS_RAMA OCUPADOS_TOTALES PART_RAMA].
    apply merge_num_total_In in Hin. destruct Hin as [Hn Ht].
    apply num_In in Hn. destruct Hn as [([e b'] & Hr & Hk) ->].
    simpl in Hk. inversion Hk; subst. apply df_ocup_rama_In in Hr.
    assert (Hkey : In (AGLOMERADO e, ANO4 e, peso_total l (AGLOMERADO e, ANO4 e))
                      (ocup_total l)).
    { apply ocup_total_In. split; [|reflexivity]. exists (e, Some b). auto. }
    split; [exists e; auto|]. split; [reflexivity|].
    cbn [fst snd] in Ht. destruct Ht as [[E _]|(tr & Hin & Hk' & ->)].
    + exfalso.
      assert (Hf : In (AGLOMERADO e, ANO4 e, peso_total l (AGLOMERADO e, ANO4 e))
                      (List.filter (fun tr => eqb_ZZ (AGLOMERADO e, ANO4 e) (fst tr))
                                   (ocup_total l))).
      { apply filter_In. split; [exact Hkey|]. apply eqb_ZZ_eq. reflexivity. }
      rewrite E in Hf. destruct Hf.
    + destruct tr as [k s]. simpl in Hk'. subst k.
      apply ocup_total_In in Hin. destruct Hin as [_ ->]. auto.
  - intros ((e & Hin & Ha & Hy) & Hr & Ht & Hp).
    exists (p_AGLOMERADO p, p_ANO4 p, RAMA p, OCUPADOS_RAMA p, OCUPADOS_TOTALES p).
    split.
    + cbn [fst snd]. rewrite <- Hp. destruct p; reflexivity.
    + apply merge_num_total_In. split.
      * apply num_In. split; [|exact Hr]. exists (e, RAMA p). split.
        -- apply df_ocup_rama_In. exact Hin.
        -- simpl. rewrite Ha, Hy. reflexivity.
      * right. exists (p_AGLOMERADO p, p_ANO4 p, peso_total l (p_AGLOMERADO p, p_ANO4 p)).
        split; [|split; [reflexivity|exact Ht]].
        apply ocup_total_In. split; [|reflexivity].
        exists (e, Some (RAMA p)). split; [exact Hin|]. simpl. rewrite Ha, Hy. reflexivity.
Qed.



Lemma filter_employed (df : list eph_row) (aglos : option (list Z)) (edad_min aglo ano : Z) :
  List.filter (fun r => (Z.eqb (AGLOMERADO r) aglo && Z.eqb (ANO4 r) ano)%bool)
    (List.filter (fun r => eqk (ESTADO r) 1)
       (List.filter (fun r => ge (CH06 r) (inject_Z edad_min))
          (List.filter (fun r => isin (AGLOMERADO r) aglos) df)))
  = employed df aglos edad_min aglo ano.
Proof.
  rewrite !filter_filter_andb. unfold employed. apply List.filter_ext.
  intros r. rewrite !andb_assoc. reflexivity.
Qed.

Lemma peso_total_rows (el : list eph_row) (aglo ano : Z) :
  List.map (fun r : eph_row * option rama => PONDERA (fst r))
           (group_rows key2 eqb_ZZ (aglo, ano) (agregar_columna_rama el))
  = List.map PONDERA
      (List.filter (fun r => (Z.eqb (AGLOMERADO r) aglo && Z.eqb (ANO4 r) ano)%bool) el).
Proof.
  unfold group_rows, agregar_columna_rama.
  induction el as [|r el IH]; [reflexivity|].
  cbn [List.map List.filter fst snd]. unfold eqb_ZZ at 1. cbn [fst snd].
  destruct (Z.eqb (AGLOMERADO r) aglo && Z.eqb (ANO4 r) ano)%bool;
    cbn [List.map fst]; rewrite IH; reflexivity.
Qed.

Lemma peso_rama_rows (el : list eph_row) (aglo ano : Z) (b : rama) :
  List.map (fun r : eph_row * rama => PONDERA (fst r))
           (group_rows key3 eqb_ZZr (aglo, ano, b)
                       (df_ocup_rama (agregar_columna_rama el)))
  = List.map PONDERA
      (List.filter (en_rama b)
         (List.filter (fun r => (Z.eqb (AGLOMERADO r) aglo && Z.eqb (ANO4 r) ano)%bool) el)).
Proof.
  unfold group_rows, agregar_columna_rama, df_ocup_rama, en_rama.
  induction el as [|r el IH]; [reflexivity|].
  cbn [List.map flat_map List.filter fst snd].
  destruct (_clasificar_rama (PP04B_COD r)) as [b'|] eqn:Ec.
  - cbn [app List.filter]. unfold eqb_ZZr at 1, eqb_ZZ at 1. cbn [fst snd].
    destruct (Z.eqb (AGLOMERADO r) aglo && Z.eqb (ANO4 r) ano)%bool;
      cbn [andb List.filter]; rewrite ?Ec; [destruct (eqb_rama b' b)|];
      cbn [List.map fst]; rewrite IH; reflexivity.
  - cbn [app].
    destruct (Z.eqb (AGLOMERADO r) aglo && Z.eqb (ANO4 r) ano)%bool;
      cbn [List.filter]; rewrite ?Ec; exact IH.
Qed.

Lemma peso_total_employed (df : list eph_row) (aglos : option (list Z))
      (edad_min aglo ano : Z) :
  peso_total (ocupados_con_rama df aglos edad_min) (aglo, ano)
  = total_employed_weight df aglos edad_min aglo ano.
Proof.
  unfold ocupados_con_rama, total_employed_weight. cbv zeta.
  rewrite peso_total_rows, filter_employed. reflexivity.
Qed.

Lemma peso_rama_employed (df : list eph_row) (aglos : option (list Z))
      (edad_min aglo ano : Z) (b : rama) :
  peso_rama (ocupados_con_rama df aglos edad_min) (aglo, ano, b)
  = branch_employed_weight df aglos edad_min aglo ano b.
Proof.
  unfold ocupados_con_rama, branch_employed_weight. cbv zeta.
  rewrite peso_rama_rows, filter_employed. reflexivity.
Qed.






End ParticipacionFacts.

(** ** Versioned output paths *)

Section VersionadoFacts.
Import Versionado.
Variable splitext : string -> string * string.

Lemma string_app_length (s t : string) :
  String.length (s +:+ t) = (String.length s + String.length t)%nat.
Proof. induction s as [|c s IH]; simpl; [reflexivity|]. rewrite IH. reflexivity. Qed.

Lemma string_app_inj_r (s1 s2 t : string) : s1 +:+ t = s2 +:+ t -> s1 = s2.
Proof.
  intros H.
  assert (Hlen : String.length s1 = String.length s2).
  { apply (f_equal String.length) in H. rewrite !string_app_length in H. lia. }
  revert s2 H Hlen. induction s1 as [|c s1 IH]; intros [|c' s2] H Hlen;
    simpl in Hlen; try discriminate; [reflexivity|].
  simpl in H. injection H as -> H. f_equal. apply IH; [exact H|lia].
Qed.

Lemma candidate_inj (path : string) (v v' : N) :
  candidate splitext path v = candidate splitext path v' -> v = v'.
Proof.
  unfold candidate. intros H.
  apply String.app_inj in H. apply String.app_inj in H.
  apply string_app_inj_r in H. apply (inj pretty) in H. exact H.
Qed.

(** A loop that runs out of fuel has seen that many existing candidates. *)
Lemma versionar_loop_None (fs : gset string) (path : string) (fuel : nat) (v : N) :
  versionar_loop splitext fs path fuel v = None ->
  forall i : nat, (i < fuel)%nat -> candidate splitext path (v + N.of_nat i) ∈ fs.
Proof.
  revert v. induction fuel as [|fuel IH]; intros v H i Hi; [lia|].
  simpl in H. destruct (decide (candidate splitext path v ∈ fs)) as [Hin|]; [|discriminate].
  destruct i as [|i].
  - rewrite N.add_0_r. exact Hin.
  - replace (v + N.of_nat (S i))%N with (v + 1 + N.of_nat i)%N by lia.
    apply IH; [exact H|lia].
Qed.

Lemma versionar_loop_Some (fs : gset string) (path : string) (fuel : nat) (v : N) (p : string) :
  versionar_loop splitext fs path fuel v = Some p ->
  exists k : N, (v <= k)%N /\ p = candidate splitext path k /\ (p ∉ fs)
                /\ forall j : N, (v <= j < k)%N -> candidate splitext path j ∈ fs.
Proof.
  revert v. induction fuel as [|fuel IH]; intros v H; [discriminate|].
  simpl in H. destruct (decide (candidate splitext path v ∈ fs)) as [Hin|Hout].
  - destruct (IH _ H) as (k & Hk & Hp & Hfree & Hlow).
    exists k. split; [lia|]. split; [exact Hp|]. split; [exact Hfree|].
    intros j Hj. destruct (N.eq_dec j v) as [->|Hne]; [exact Hin|].
    apply Hlow. lia.
  - injection H as <-. exists v. split; [lia|]. split; [reflexivity|].
    split; [exact Hout|]. intros j Hj. lia.
Qed.

(** More iterations than existing paths are never needed. *)
Lemma versionar_loop_terminates (fs : gset string) (path : string) (fuel : nat) (v : N) :
  (size fs < fuel)%nat -> versionar_loop splitext fs path fuel v <> None.
Proof.
  intros Hfuel Hnone.
  pose proof (versionar_loop_None fs path fuel v Hnone) as Hall.
  set (l := (fun i : nat => candidate splitext path (v + N.of_nat i)) <$> seq 0 fuel).
  assert (Hnd : NoDup l).
  { unfold l. apply NoDup_fmap_2_strong; [|apply NoDup_seq].
    intros i j _ _ Hij. apply candidate_inj in Hij. lia. }
  assert (Hsub : (list_to_set l : gset string) ⊆ fs).
  { intros x Hx. apply elem_of_list_to_set in Hx. unfold l in Hx.
    apply list_elem_of_fmap in Hx. destruct Hx as (i & -> & Hi).
    apply Hall. apply elem_of_seq in Hi. lia. }
  apply subseteq_size in Hsub. rewrite (size_list_to_set l Hnd) in Hsub.
  unfold l in Hsub. rewrite length_fmap, length_seq in Hsub. lia.
Qed.

(** X1. [versionar_archivo] always ends (within one iteration more than
    there are existing paths) on a path that does not exist; a free path is
    returned as it is. *)
Theorem versionar_archivo_fresh (fs : gset string) (path : string) (fuel : nat) :
  (size fs < fuel)%nat ->
  exists p : string,
    versionar_archivo splitext fs path fuel = Some p
    /\ (p ∉ fs)
    /\ (path ∉ fs -> p = path).
Proof.
  intros Hfuel. unfold versionar_archivo.
  destruct (decide (path ∈ fs)) as [Hin|Hout].
  - destruct (versionar_loop splitext fs path fuel 2) as [p|] eqn:E.
    + exists p. destruct (versionar_loop_Some _ _ _ _ _ E) as (k & _ & _ & Hfree & _).
      split; [reflexivity|]. split; [exact Hfree|]. intros Hc. contradiction.
    + exfalso. exact (versionar_loop_terminates fs path fuel 2 Hfuel E).
  - exists path. split; [reflexivity|]. split; [exact Hout|]. reflexivity.
Qed.

(** X2. When the path is taken, the result is the versioned name with the
    smallest version number from 2 on that is free: every lower version
    exists. *)
Theorem versionar_archivo_smallest_version (fs : gset string) (path : string) (fuel : nat) :
  (size fs < fuel)%nat -> path ∈ fs ->
  exists k : N,
    (2 <= k)%N
    /\ versionar_archivo splitext fs path fuel = Some (candidate splitext path k)
    /\ (candidate splitext path k ∉ fs)
    /\ forall j : N, (2 <= j < k)%N -> candidate splitext path j ∈ fs.
Proof.
  intros Hfuel Hin. unfold versionar_archivo.
  destruct (decide (path ∈ fs)) as [_|Hout]; [|contradiction].
  destruct (versionar_loop splitext fs path fuel 2) as [p|] eqn:E.
  - destruct (versionar_loop_Some _ _ _ _ _ E) as (k & Hk & -> & Hfree & Hlow).
    exists k. auto.
  - exfalso. exact (versionar_loop_terminates fs path fuel 2 Hfuel E).
Qed.
End VersionadoFacts.

(** The theorems with "out.png" and "out_v2.png" taken: the result is
    "out_v3.png". *)
Lemma versionar_archivo_fresh_witness :
  exists p : string,
    Versionado.versionar_archivo (fun _ => ("out", ".png")%string)
      {[ "out.png"%string; "out_v2.png"%string ]} "out.png" 3 = Some p
    /\ (p ∉ ({[ "out.png"%string; "out_v2.png"%string ]} : gset string))
    /\ ("out.png"%string ∉ ({[ "out.png"%string; "out_v2.png"%string ]} : gset string)
        -> p = "out.png"%string).
Proof.
  apply (versionar_archivo_fresh (fun _ => ("out", ".png")%string)
           {[ "out.png"%string; "out_v2.png"%string ]} "out.png" 3).
  vm_compute. lia.
Defined.

Lemma versionar_archivo_smallest_version_witness :
  exists k : N,
    (2 <= k)%N
    /\ Versionado.versionar_archivo (fun _ => ("out", ".png")%string)
         {[ "out.png"%string; "out_v2.png"%string ]} "out.png" 3
       = Some (Versionado.candidate (fun _ => ("out", ".png")%string) "out.png" k)
    /\ (Versionado.candidate (fun _ => ("out", ".png")%string) "out.png" k
        ∉ ({[ "out.png"%string; "out_v2.png"%string ]} : gset string))
    /\ forall j : N, (2 <= j < k)%N ->
         Versionado.candidate (fun _ => ("out", ".png")%string) "out.png" j
         ∈ ({[ "out.png"%string; "out_v2.png"%string ]} : gset string).
Proof.
  apply (versionar_archivo_smallest_version (fun _ => ("out", ".png")%string)
           {[ "out.png"%string; "out_v2.png"%string ]} "out.png" 3).
  - vm_compute. lia.
  - set_solver.
Defined.

(** ** More on the record normaliser *)

Section CleaningMore.
Import Cleaning CleaningSpec.

Lemma count_column (c : string) (cols : list string) :
  NoDup cols ->
  length (List.filter (String.eqb c) cols) = if decide (c ∈ cols) then 1%nat else 0%nat.
Proof.
  induction 1 as [|col cols Hnotin Hnd IH]; simpl.
  - destruct (decide (c ∈ [])) as [Hin|]; [inversion Hin|reflexivity].
  - destruct (String.eqb_spec c col) as [->|Hne]; simpl.
    + rewrite IH. destruct (decide (col ∈ cols)); [contradiction|].
      destruct (decide (col ∈ col :: cols)) as [|Hn]; [reflexivity|].
      exfalso. apply Hn. left.
    + rewrite IH. destruct (decide (c ∈ cols)) as [Hin|Hout].
      * destruct (decide (c ∈ col :: cols)) as [|Hn]; [reflexivity|].
        exfalso. apply Hn. right. exact Hin.
      * destruct (decide (c ∈ col :: cols)) as [Hin|]; [|reflexivity].
        exfalso. apply elem_of_cons in Hin. destruct Hin; [congruence|contradiction].
Qed.

Lemma NoDup_COLS_CON_NA : NoDup COLS_CON_NA.
Proof. apply (bool_decide_unpack (NoDup COLS_CON_NA)). vm_compute. exact I. Qed.

Lemma NoDup_NUMERIC_COLS : NoDup NUMERIC_COLS.
Proof. apply (bool_decide_unpack (NoDup NUMERIC_COLS)). vm_compute. exact I. Qed.

(** What [_replace_no_respuesta] does to each column. *)
Lemma replace_no_respuesta_lookup (df : gmap string (list cell)) (c : string) :
  _replace_no_respuesta df !! c
  = if decide (c ∈ COLS_CON_NA)
    then fmap (replace_cell NO_RESPUESTA) <$> (df !! c)
    else df !! c.
Proof.
  unfold _replace_no_respuesta.
  rewrite lookup_fold_columns, (count_column c _ NoDup_COLS_CON_NA).
  destruct (decide (c ∈ COLS_CON_NA)); reflexivity.
Qed.

(** What [_convert_numeric] does to each column. *)
Lemma convert_numeric_lookup parse (df : gmap string (list cell)) (c : string) :
  _convert_numeric parse df !! c
  = if decide (c = "P47T"%string)
    then fmap (fun x => negative_to_nan (to_numeric parse x)) <$> (df !! c)
    else if decide (c ∈ NUMERIC_COLS)
         then fmap (to_numeric parse) <$> (df !! c)
         else df !! c.
Proof.
  destruct (decide (c = "P47T"%string)) as [->|Hne]; [apply convert_numeric_P47T|].
  unfold _convert_numeric.
  set (df1 := fold_left _ NUMERIC_COLS df).
  assert (H : df1 !! c = if decide (c ∈ NUMERIC_COLS)
                         then fmap (to_numeric parse) <$> (df !! c) else df !! c).
  { unfold df1. rewrite lookup_fold_columns, (count_column c _ NoDup_NUMERIC_COLS).
    destruct (decide (c ∈ NUMERIC_COLS)); reflexivity. }
  cbv zeta. destruct (df1 !! "P47T"%string); [|exact H].
  rewrite lookup_insert_ne by congruence. exact H.
Qed.

Lemma replace_cell_idempotent (codes : list Q) (x : cell) :
  replace_cell codes (replace_cell codes x) = replace_cell codes x.
Proof.
  destruct x as [|q|s]; simpl; try reflexivity.
  destruct (existsb (Qeq_bool q) codes) eqn:E; simpl; [reflexivity|].
  rewrite E. reflexivity.
Qed.

(** X3. [_replace_no_respuesta] touches only the columns of COLS_CON_NA: any
    other column (ESTADO, PONDERA, AGLOMERADO, ...) is returned as it is; no
    column appears or disappears and no column changes length. *)
Theorem replace_no_respuesta_only_listed_columns (df : gmap string (list cell)) :
  (forall c : string, c ∉ COLS_CON_NA -> _replace_no_respuesta df !! c = df !! c)
  /\ dom (_replace_no_respuesta df) = dom df
  /\ (forall c : string,
         length <$> (_replace_no_respuesta df !! c) = length <$> (df !! c)).
Proof.
  split; [|split].
  - intros c Hc. rewrite replace_no_respuesta_lookup.
    destruct (decide (c ∈ COLS_CON_NA)); [contradiction|reflexivity].
  - apply set_eq. intros c. rewrite !elem_of_dom, replace_no_respuesta_lookup.
    destruct (decide (c ∈ COLS_CON_NA)); [|reflexivity].
    rewrite fmap_is_Some. reflexivity.
  - intros c. rewrite replace_no_respuesta_lookup.
    destruct (decide (c ∈ COLS_CON_NA)); [|reflexivity].
    destruct (df !! c) as [col|]; simpl; [|reflexivity].
    rewrite length_fmap. reflexivity.
Qed.

(** X4. [_replace_no_respuesta] is idempotent: a second pass changes nothing. *)
Theorem replace_no_respuesta_idempotent (df : gmap string (list cell)) :
  _replace_no_respuesta (_replace_no_respuesta df) = _replace_no_respuesta df.
Proof.
  apply map_eq. intros c. rewrite !replace_no_respuesta_lookup.
  destruct (decide (c ∈ COLS_CON_NA)); [|reflexivity].
  destruct (df !! c) as [col|]; simpl; [|reflexivity].
  f_equal. rewrite <- list_fmap_compose. apply list_fmap_ext.
  intros i x _. apply replace_cell_idempotent.
Qed.

Lemma to_numeric_numeric parse (x : cell) : numeric_cell (to_numeric parse x).
Proof.
  destruct x as [|q|s]; simpl; [left; reflexivity|right; eauto|].
  destruct (parse s); [right; eauto|left; reflexivity].
Qed.

Lemma negative_to_nan_nonneg (x : cell) :
  numeric_cell x ->
  negative_to_nan x = CNaN \/ exists q, negative_to_nan x = CNum q /\ 0 <= q.
Proof.
  intros [->|[q ->]]; simpl; [left; reflexivity|].
  destruct (Qle_bool 0 q) eqn:E; simpl; [|left; reflexivity].
  right. exists q. split; [reflexivity|]. apply Qle_bool_iff. exact E.
Qed.

(** X5. After cleaning, every column of NUMERIC_COLS holds only numbers and
    NaN (no text is left), and the income column P47T holds no negative
    number. *)
Theorem cleaned_numeric_columns parse (df : gmap string (list cell)) :
  (forall (c : string) (col : list cell),
      c ∈ NUMERIC_COLS -> generar_eph_limpia parse df !! c = Some col ->
      Forall numeric_cell col)
  /\ (forall col : list cell,
         generar_eph_limpia parse df !! "P47T"%string = Some col ->
         Forall (fun x => x = CNaN \/ exists q, x = CNum q /\ 0 <= q) col).
Proof.
  unfold generar_eph_limpia. split.
  - intros c col Hc. rewrite convert_numeric_lookup.
    destruct (decide (c = "P47T"%string)).
    + destruct (_replace_no_respuesta df !! c) as [col0|]; simpl; [|discriminate].
      intros [= <-]. apply Forall_fmap, Forall_true. intros x. simpl.
      destruct (negative_to_nan_nonneg _ (to_numeric_numeric parse x)) as [->|(q & -> & _)];
        [left; reflexivity|right; eauto].
    + destruct (decide (c ∈ NUMERIC_COLS)); [|contradiction].
      destruct (_replace_no_respuesta df !! c) as [col0|]; simpl; [|discriminate].
      intros [= <-]. apply Forall_fmap, Forall_true. intros x.
      apply to_numeric_numeric.
  - intros col. rewrite convert_numeric_lookup.
    destruct (decide ("P47T"%string = "P47T"%string)); [|congruence].
    destruct (_replace_no_respuesta df !! "P47T"%string) as [col0|]; simpl; [|discriminate].
    intros [= <-]. apply Forall_fmap, Forall_true. intros x. simpl.
    apply negative_to_nan_nonneg, to_numeric_numeric.
Qed.

(** X6. The sentinel pass runs before the numeric conversion and compares
    numbers only: an income that arrives as text is converted to the number
    it spells, even 9 or 99, and is not turned into NaN. *)
Theorem text_income_skips_sentinel_replacement
        (parse : string -> option Q) (df : gmap string (list cell))
        (col : list cell) (i : nat) (s : string) (q : Q) :
  df !! "P47T"%string = Some col ->
  col !! i = Some (CStr s) ->
  parse s = Some q -> 0 <= q ->
  exists col',
    generar_eph_limpia parse df !! "P47T"%string = Some col'
    /\ col' !! i = Some (CNum q).
Proof.
  intros Hcol Hi Hs Hq. unfold generar_eph_limpia.
  rewrite convert_numeric_P47T, replace_no_respuesta_P47T, Hcol.
  cbn -[replace_cell NO_RESPUESTA].
  eexists. split; [reflexivity|].
  rewrite !list_lookup_fmap, Hi. simpl. rewrite Hs. simpl.
  apply Qle_bool_iff in Hq. rewrite Hq. reflexivity.
Qed.

Lemma text_income_skips_sentinel_replacement_witness :
  exists col',
    generar_eph_limpia (fun _ => Some 99)
      {[ "P47T"%string := [CNum 99; CStr "99"] ]} !! "P47T"%string = Some col'
    /\ col' !! 1%nat = Some (CNum 99).
Proof.
  apply (text_income_skips_sentinel_replacement (fun _ => Some 99)
           {[ "P47T"%string := [CNum 99; CStr "99"] ]} [CNum 99; CStr "99"] 1 "99" 99).
  - apply lookup_singleton_eq.
  - reflexivity.
  - reflexivity.
  - discriminate.
Defined.

(** X7. In a column that is not in COLS_CON_NA every number survives the
    cleaning unchanged: ESTADO = 9 is kept, and so is a weight PONDERA of -1
    or 0 (only P47T has its negative values removed). *)
Theorem unlisted_column_keeps_numbers
        (parse : string -> option Q) (df : gmap string (list cell))
        (c : string) (col : list cell) (i : nat) (q : Q) :
  c ∉ COLS_CON_NA ->
  df !! c = Some col ->
  col !! i = Some (CNum q) ->
  exists col',
    generar_eph_limpia parse df !! c = Some col'
    /\ col' !! i = Some (CNum q).
Proof.
  intros Hc Hcol Hi. unfold generar_eph_limpia.
  rewrite convert_numeric_lookup, replace_no_respuesta_lookup.
  destruct (decide (c ∈ COLS_CON_NA)); [contradiction|].
  destruct (decide (c = "P47T"%string)) as [->|_].
  { exfalso. apply Hc. apply (bool_decide_unpack _). vm_compute. exact I. }
  rewrite Hcol. destruct (decide (c ∈ NUMERIC_COLS)); simpl.
  - eexists. split; [reflexivity|]. rewrite list_lookup_fmap, Hi. reflexivity.
  - exists col. split; [reflexivity|exact Hi].
Qed.

Lemma unlisted_column_keeps_numbers_witness :
  exists col',
    generar_eph_limpia (fun _ => None)
      {[ "PONDERA"%string := [CNum (-1); CNum 9] ]} !! "PONDERA"%string = Some col'
    /\ col' !! 0%nat = Some (CNum (-1)).
Proof.
  apply (unlisted_column_keeps_numbers (fun _ => None)
           {[ "PONDERA"%string := [CNum (-1); CNum 9] ]} "PONDERA"
           [CNum (-1); CNum 9] 0 (-1)).
  - apply (bool_decide_unpack _). vm_compute. exact I.
  - apply lookup_singleton_eq.
  - reflexivity.
Defined.
End CleaningMore.

(** ** Order and distinctness of group keys *)

Section GroupByOrder.
Context {A K : Type}.
Variable key : A -> K.
Variable keqb : K -> K -> bool.
Variable kleb : K -> K -> bool.
Hypothesis keqb_eq : forall a b, keqb a b = true <-> a = b.
Hypothesis kleb_total : forall a b, kleb a b = true \/ kleb b a = true.
Hypothesis kleb_trans : forall a b c, kleb a b = true -> kleb b c = true -> kleb a c = true.

Lemma unique_keys_NoDup (ks : list K) : List.NoDup (unique_keys keqb ks).
Proof.
  induction ks as [|k ks IH]; simpl; [constructor|].
  destruct (existsb (keqb k) ks) eqn:E; [exact IH|].
  constructor; [|exact IH]. intros Hin.
  apply (proj1 (unique_keys_In keqb kleb keqb_eq _ _)) in Hin.
  assert (Hex : existsb (keqb k) ks = true).
  { apply existsb_exists. exists k. split; [exact Hin|]. apply keqb_eq. reflexivity. }
  congruence.
Qed.

Lemma insert_key_NoDup (k : K) (ks : list K) :
  ~ In k ks -> List.NoDup ks -> List.NoDup (insert_key kleb k ks).
Proof.
  induction ks as [|k0 ks IH]; intros Hk Hnd; simpl.
  - constructor; [exact Hk|constructor].
  - destruct (kleb k k0); [constructor; assumption|].
    apply List.NoDup_cons_iff in Hnd. destruct Hnd as [Hk0 Hnd].
    constructor.
    + intros Hin. apply insert_key_In in Hin. destruct Hin as [->|Hin].
      * apply Hk. left; reflexivity.
      * contradiction.
    + apply IH; [|exact Hnd]. intros Hin. apply Hk. right; exact Hin.
Qed.

Lemma insert_key_sorted (k : K) (ks : list K) :
  StronglySorted (fun a b => kleb a b = true) ks ->
  StronglySorted (fun a b => kleb a b = true) (insert_key kleb k ks).
Proof.
  induction 1 as [|k0 ks Hs IH Hall]; simpl.
  - constructor; constructor.
  - destruct (kleb k k0) eqn:E.
    + constructor; [constructor; assumption|].
      constructor; [exact E|].
      rewrite List.Forall_forall in Hall |- *. intros x Hx.
      apply kleb_trans with k0; [exact E|]. apply Hall. exact Hx.
    + assert (E' : kleb k0 k = true) by (destruct (kleb_total k k0); congruence).
      constructor; [exact IH|].
      apply List.Forall_forall. intros x Hx. apply insert_key_In in Hx.
      destruct Hx as [->|Hx]; [exact E'|].
      rewrite List.Forall_forall in Hall. apply Hall. exact Hx.
Qed.

(** The keys of the groups are listed in order, each once. *)
Lemma group_keys_sorted_NoDup (rows : list A) :
  StronglySorted (fun a b => kleb a b = true) (group_keys key keqb kleb rows)
  /\ List.NoDup (group_keys key keqb kleb rows).
Proof.
  unfold group_keys.
  pose proof (unique_keys_NoDup (List.map key rows)) as Hnd.
  induction (unique_keys keqb (List.map key rows)) as [|k ks IH]; simpl.
  - split; constructor.
  - apply List.NoDup_cons_iff in Hnd. destruct Hnd as [Hk Hnd].
    destruct (IH Hnd) as [IH1 IH2]. split.
    + apply insert_key_sorted. exact IH1.
    + apply insert_key_NoDup; [|exact IH2]. intros Hin. apply Hk.
      clear -Hin. induction ks as [|k0 ks IHks]; simpl in Hin; [destruct Hin|].
      apply insert_key_In in Hin. destruct Hin as [->|Hin]; [left; reflexivity|].
      right. apply IHks. exact Hin.
Qed.

(** A group is never empty and holds only rows of its key. *)
Lemma group_rows_of_key (k : K) (rows : list A) :
  In k (group_keys key keqb kleb rows) ->
  group_rows key keqb k rows <> []
  /\ Forall (fun r => In r rows /\ key r = k) (group_rows key keqb k rows).
Proof.
  intros Hk. apply (group_keys_In key keqb kleb keqb_eq) in Hk.
  destruct Hk as (r & Hr & Hkey). unfold group_rows. split.
  - intros E.
    assert (Hin : In r (List.filter (fun r => keqb (key r) k) rows)).
    { apply filter_In. split; [exact Hr|]. apply keqb_eq. exact Hkey. }
    rewrite E in Hin. destruct Hin.
  - apply List.Forall_forall. intros x Hx. apply filter_In in Hx.
    destruct Hx as [Hx Hkx]. apply keqb_eq in Hkx. auto.
Qed.
End GroupByOrder.

Lemma eqb_ZZZ_eq (a b : Z * Z * Z) : eqb_ZZZ a b = true <-> a = b.
Proof.
  destruct a as [[a1 a2] a3], b as [[b1 b2] b3]. unfold eqb_ZZZ, eqb_ZZ; simpl.
  rewrite !andb_true_iff, !Z.eqb_eq. split; [intros [[-> ->] ->]; reflexivity|].
  intros H; inversion H; auto.
Qed.

Lemma leb_ZZ_iff (a b : Z * Z) :
  leb_ZZ a b = true
  <-> (fst a < fst b \/ (fst a = fst b /\ snd a <= snd b))%Z.
Proof.
  unfold leb_ZZ. rewrite orb_true_iff, andb_true_iff, Z.ltb_lt, Z.eqb_eq, Z.leb_le.
  reflexivity.
Qed.

Lemma leb_ZZZ_iff (a b : Z * Z * Z) :
  leb_ZZZ a b = true
  <-> (fst (fst a) < fst (fst b)
       \/ (fst (fst a) = fst (fst b) /\ snd (fst a) < snd (fst b))
       \/ (fst (fst a) = fst (fst b) /\ snd (fst a) = snd (fst b) /\ snd a <= snd b))%Z.
Proof.
  unfold leb_ZZZ. rewrite orb_true_iff, andb_true_iff, negb_true_iff, Z.leb_le.
  rewrite <- not_true_iff_false, leb_ZZ_iff.
  unfold eqb_ZZ. rewrite andb_true_iff, !Z.eqb_eq. lia.
Qed.

Lemma leb_ZZZ_total (a b : Z * Z * Z) : leb_ZZZ a b = true \/ leb_ZZZ b a = true.
Proof. rewrite !leb_ZZZ_iff. lia. Qed.

Lemma leb_ZZZ_trans (a b c : Z * Z * Z) :
  leb_ZZZ a b = true -> leb_ZZZ b c = true -> leb_ZZZ a c = true.
Proof. rewrite !leb_ZZZ_iff. lia. Qed.

(** ** More on the labour-force rates *)

Section TasasMore.
Import Tasas Spec.

Lemma count_disjoint {A : Type} (f g : A -> bool) (l : list A) :
  (forall x, f x = true -> g x = false) ->
  (length (List.filter f l) + length (List.filter g l) <= length l)%nat.
Proof.
  intros Hfg. induction l as [|x l IH]; simpl; [lia|].
  destruct (f x) eqn:Ef; [rewrite (Hfg x Ef)|destruct (g x)]; simpl; lia.
Qed.

Lemma filter_all_true {A : Type} (f : A -> bool) (l : list A) :
  Forall (fun x => f x = true) l -> List.filter f l = l.
Proof.
  induction 1 as [|x l Hx Hl IH]; simpl; [reflexivity|]. rewrite Hx, IH. reflexivity.
Qed.

(** Employed plus unemployed never exceeds the 18+ population. *)
Lemma pea_le_poblacion (df : list eph_row) : (pea df <= poblacion df)%nat.
Proof.
  unfold pea, ocupados, desocupados, cuenta_estado, poblacion.
  apply count_disjoint. intros r H. unfold eqk in *.
  destruct (ESTADO r) as [q|]; [|reflexivity].
  destruct (Qeq_bool q 2) eqn:E; [|reflexivity].
  apply Qeq_bool_iff in H, E. rewrite H in E. discriminate.
Qed.

Lemma ratio_bounds (a b : nat) :
  (a <= b)%nat -> (0 < b)%nat -> 0 <= ratio a b /\ ratio a b <= 1.
Proof.
  intros Hab Hb. unfold ratio.
  assert (Hb' : 0 < inject_Z (Z.of_nat b)).
  { change 0 with (inject_Z 0). rewrite <- Zlt_Qlt. lia. }
  assert (Ha' : 0 <= inject_Z (Z.of_nat a)).
  { change 0 with (inject_Z 0). rewrite <- Zle_Qle. lia. }
  assert (Hab' : inject_Z (Z.of_nat a) <= inject_Z (Z.of_nat b)).
  { rewrite <- Zle_Qle. lia. }
  split.
  - apply Qle_shift_div_l; [exact Hb'|]. lra.
  - apply Qle_shift_div_r; [exact Hb'|]. lra.
Qed.

Lemma ratio_mono (a a' b : nat) :
  (a <= a')%nat -> (0 < b)%nat -> ratio a b <= ratio a' b.
Proof.
  intros Ha Hb. unfold ratio, Qdiv.
  apply Qmult_le_compat_r; [rewrite <- Zle_Qle; lia|].
  apply Qlt_le_weak, Qinv_lt_0_compat.
  change 0 with (inject_Z 0). rewrite <- Zlt_Qlt. lia.
Qed.

(** X8. The three rates of any table lie between 0 and 1, and the employment
    rate never exceeds the activity rate. *)
Theorem rates_between_0_and_1 (df : list eph_row) :
  (0 <= TA (calcular_tasas df) /\ TA (calcular_tasas df) <= 1)
  /\ (0 <= TE (calcular_tasas df) /\ TE (calcular_tasas df) <= TA (calcular_tasas df))
  /\ (0 <= TD (calcular_tasas df) /\ TD (calcular_tasas df) <= 1).
Proof.
  pose proof (pea_le_poblacion df) as Hpea.
  unfold calcular_tasas; simpl.
  assert (Ho : (ocupados df <= pea df)%nat) by (unfold pea; lia).
  assert (Hd : (desocupados df <= pea df)%nat) by (unfold pea; lia).
  split; [|split].
  - destruct (0 <? poblacion df)%nat eqn:E; [|split; discriminate].
    apply Nat.ltb_lt in E. apply ratio_bounds; assumption.
  - destruct (0 <? poblacion df)%nat eqn:E; [|split; discriminate].
    apply Nat.ltb_lt in E. split.
    + apply ratio_bounds; [lia|exact E].
    + apply ratio_mono; assumption.
  - destruct (0 <? pea df)%nat eqn:E; [|split; discriminate].
    apply Nat.ltb_lt in E. apply ratio_bounds; assumption.
Qed.

(** X10. The quarterly table of rates has one row per (region, year,
    quarter) that holds an 18+ record, in lexicographic order of the key;
    the group of every row is non-empty, so its population is positive and TA
    and TE are true ratios, never the default for an empty cohort. *)
Theorem tasas_trimestrales_rows (df : list eph_row) :
  StronglySorted (fun a b => leb_ZZZ a b = true) (List.map fst (tasas_trimestrales df))
  /\ List.NoDup (List.map fst (tasas_trimestrales df))
  /\ (forall k : Z * Z * Z,
         In k (List.map fst (tasas_trimestrales df))
         <-> exists r, In r df /\ ge (CH06 r) 18 = true
                       /\ (AGLOMERADO r, ANO4 r, TRIMESTRE r) = k)
  /\ Forall (fun row => (0 < poblacion (grupo_tasas df (fst row)))%nat
                        /\ TA (snd row) == ratio (pea (grupo_tasas df (fst row)))
                                                 (poblacion (grupo_tasas df (fst row))))
            (tasas_trimestrales df).
Proof.
  assert (Hkeys : List.map fst (tasas_trimestrales df)
                  = group_keys (fun r => (AGLOMERADO r, ANO4 r, TRIMESTRE r))
                               eqb_ZZZ leb_ZZZ (adultos df)).
  { unfold tasas_trimestrales, groupby. rewrite !List.map_map. simpl. apply List.map_id. }
  destruct (group_keys_sorted_NoDup (fun r => (AGLOMERADO r, ANO4 r, TRIMESTRE r))
              eqb_ZZZ leb_ZZZ eqb_ZZZ_eq leb_ZZZ_total leb_ZZZ_trans (adultos df))
    as [Hs Hnd].
  split; [rewrite Hkeys; exact Hs|]. split; [rewrite Hkeys; exact Hnd|]. split.
  - intros k. rewrite Hkeys, (group_keys_In _ _ _ eqb_ZZZ_eq). unfold adultos.
    split; intros (r & Hr & Hk); exists r.
    + apply filter_In in Hr. tauto.
    + split; [apply filter_In; tauto|tauto].
  - unfold tasas_trimestrales, groupby. rewrite List.map_map.
    apply List.Forall_forall. intros row Hrow. apply List.in_map_iff in Hrow.
    destruct Hrow as (k & <- & Hk). cbn [fst snd]. fold (grupo_tasas df k).
    destruct (group_rows_of_key (fun r => (AGLOMERADO r, ANO4 r, TRIMESTRE r))
                eqb_ZZZ leb_ZZZ eqb_ZZZ_eq k (adultos df) Hk) as [Hne Hall].
    fold (grupo_tasas df k) in Hne, Hall.
    assert (Hpob : poblacion (grupo_tasas df k) = length (grupo_tasas df k)).
    { unfold poblacion, adultos at 1. f_equal. apply filter_all_true.
      eapply List.Forall_impl; [|exact Hall]. simpl. intros r [Hin _].
      unfold adultos in Hin. apply filter_In in Hin. tauto. }
    assert (Hpos : (0 < poblacion (grupo_tasas df k))%nat).
    { rewrite Hpob. destruct (grupo_tasas df k); [congruence|simpl; lia]. }
    split; [exact Hpos|]. unfold calcular_tasas; simpl.
    apply Nat.ltb_lt in Hpos. rewrite Hpos. reflexivity.
Qed.
End TasasMore.

(** ** More on the deflator *)

Section DeflatorMore.
Import Ingresos Spec Fixtures.

Lemma merge_left_records_In (df : list eph_row) (ipc_df : list ipc_row) (r : eph_row) :
  In r (List.map fst (merge_left df ipc_df)) <-> In r df.
Proof.
  unfold merge_left. rewrite List.in_map_iff. split.
  - intros ([r' i] & <- & Hin). apply in_flat_map in Hin.
    destruct Hin as (r0 & Hr0 & Hin).
    destruct (List.filter (same_period r0) ipc_df) as [|e es].
    + destruct Hin as [H|[]]. inversion H; subst. exact Hr0.
    + apply List.in_map_iff in Hin. destruct Hin as (e' & H & _).
      inversion H; subst. exact Hr0.
  - intros Hr.
    destruct (List.filter (same_period r) ipc_df) as [|e es] eqn:E.
    + exists (r, NaN). split; [reflexivity|]. apply in_flat_map. exists r.
      split; [exact Hr|]. rewrite E. left; reflexivity.
    + exists (r, i_IPC e). split; [reflexivity|]. apply in_flat_map. exists r.
      split; [exact Hr|]. rewrite E. left; reflexivity.
Qed.

Lemma find_filter_head {A : Type} (f : A -> bool) (l : list A) (e : A) :
  List.find f l = Some e -> exists rest, List.filter f l = e :: rest.
Proof.
  induction l as [|a l IH]; simpl; [discriminate|].
  destruct (f a); [intros [= ->]; eauto|exact IH].
Qed.

(** X11. When the base period has an index entry, deflation is a left join:
    it returns a table that holds every survey record (and no other), and a
    record whose period has no index entry gets a missing index and a
    missing real income instead of being dropped. *)
Theorem deflactar_keeps_every_record
        (df_eph : list eph_row) (ipc_df : list ipc_row)
        (ano_base trimestre_base : Z) (e : ipc_row) :
  List.find (is_base ano_base trimestre_base) ipc_df = Some e ->
  exists out,
    deflactar_ingreso df_eph ipc_df ano_base trimestre_base = Ok out
    /\ (forall r, In r (List.map eph out) <-> In r df_eph)
    /\ Forall (fun o => (forall e', In e' ipc_df -> same_period (eph o) e' = false) ->
                        IPC o = NaN /\ INGRESO_REAL o = NaN)
              out.
Proof.
  intros Hfind. destruct (find_filter_head _ _ _ Hfind) as [rest E].
  unfold deflactar_ingreso. rewrite E. eexists. split; [reflexivity|]. split.
  - intros r. rewrite List.map_map. simpl. apply merge_left_records_In.
  - apply List.Forall_forall. intros o Ho. apply List.in_map_iff in Ho.
    destruct Ho as ([r i] & <- & Hri). simpl. intros Hnone.
    apply merge_left_index in Hri. destruct Hri as [[_ ->]|(e' & He' & _)].
    + split; [reflexivity|]. unfold fdiv, fmul.
      destruct (P47T r); destruct (i_IPC e); reflexivity.
    + apply filter_In in He'. destruct He' as [Hin Hsp].
      rewrite (Hnone e' Hin) in Hsp. discriminate.
Qed.

(** The theorem at an index that only knows 2024-T1 (the base) and a record
    of 2023-T4. *)
Lemma deflactar_keeps_every_record_witness :
  exists out,
    deflactar_ingreso
      [ocupado (Some 1000) (Some 2) NaN;
       {| ANO4 := 2023; TRIMESTRE := 4; AGLOMERADO := 31; ESTADO := Some 1;
          CH06 := Some 30; PONDERA := Some 1; P47T := Some 500; PP04B_COD := NaN |}]
      [ipc_2024T1 (Some 100)] 2024 1 = Ok out
    /\ (forall r,
           In r (List.map eph out)
           <-> In r [ocupado (Some 1000) (Some 2) NaN;
                     {| ANO4 := 2023; TRIMESTRE := 4; AGLOMERADO := 31; ESTADO := Some 1;
                        CH06 := Some 30; PONDERA := Some 1; P47T := Some 500;
                        PP04B_COD := NaN |}])
    /\ Forall (fun o => (forall e', In e' [ipc_2024T1 (Some 100)] ->
                                    same_period (eph o) e' = false) ->
                        IPC o = NaN /\ INGRESO_REAL o = NaN)
              out.
Proof.
  apply (deflactar_keeps_every_record _ [ipc_2024T1 (Some 100)] 2024 1
           (ipc_2024T1 (Some 100))).
  reflexivity.
Defined.

End DeflatorMore.

(** ** The rows of the income tables *)

Section WeightedMeanMore.
Import Ingresos Spec Fixtures.

Lemma Zleb_total (a b : Z) : Z.leb a b = true \/ Z.leb b a = true.
Proof. rewrite !Z.leb_le. lia. Qed.

Lemma Zleb_trans (a b c : Z) : Z.leb a b = true -> Z.leb b c = true -> Z.leb a c = true.
Proof. rewrite !Z.leb_le. lia. Qed.

Lemma sorted_NoDup_strict (l : list Z) :
  StronglySorted (fun a b => Z.leb a b = true) l -> List.NoDup l ->
  StronglySorted Z.lt l.
Proof.
  induction 1 as [|k l Hs IH Hall]; intros Hnd; [constructor|].
  apply List.NoDup_cons_iff in Hnd. destruct Hnd as [Hk Hnd].
  constructor; [apply IH; exact Hnd|].
  rewrite List.Forall_forall in Hall |- *. intros x Hx.
  specialize (Hall x Hx). apply Z.leb_le in Hall.
  assert (x <> k) by (intros ->; contradiction). lia.
Qed.

(** A selection that holds a record gives both income tables a row. *)
Lemma income_tables_nonempty (df : list defl_row) (target : option (list Z)) (r : defl_row) :
  In r df -> isin (AGLOMERADO (eph r)) target = true ->
  ingreso_promedio_por_aglomerado df target <> []
  /\ ingreso_promedio_trimestral_por_aglomerado df target <> [].
Proof.
  intros Hr Hi.
  assert (Hin : In r (List.filter (fun r => isin (AGLOMERADO (eph r)) target) df))
    by (apply filter_In; auto).
  unfold ingreso_promedio_por_aglomerado, ingreso_promedio_trimestral_por_aglomerado.
  cbv zeta. split; intros E; apply List.map_eq_nil in E.
  - assert (H : In (AGLOMERADO (eph r),
                    group_rows (fun r => AGLOMERADO (eph r)) Z.eqb (AGLOMERADO (eph r))
                      (List.filter (fun r => isin (AGLOMERADO (eph r)) target) df))
                   (groupby (fun r => AGLOMERADO (eph r)) Z.eqb Z.leb
                      (List.filter (fun r => isin (AGLOMERADO (eph r)) target) df))).
    { apply (groupby_In _ _ _ Z.eqb_eq). split; [eauto|reflexivity]. }
    rewrite E in H. destruct H.
  - assert (H : In ((AGLOMERADO (eph r), ANO4 (eph r), TRIMESTRE (eph r)),
                    group_rows
                      (fun r => (AGLOMERADO (eph r), ANO4 (eph r), TRIMESTRE (eph r)))
                      eqb_ZZZ (AGLOMERADO (eph r), ANO4 (eph r), TRIMESTRE (eph r))
                      (List.filter (fun r => isin (AGLOMERADO (eph r)) target) df))
                   (groupby
                      (fun r => (AGLOMERADO (eph r), ANO4 (eph r), TRIMESTRE (eph r)))
                      eqb_ZZZ leb_ZZZ
                      (List.filter (fun r => isin (AGLOMERADO (eph r)) target) df))).
    { apply (groupby_In _ _ _ eqb_ZZZ_eq). split; [eauto|reflexivity]. }
    rewrite E in H. destruct H.
Qed.

(** X15. When some record of the table lies in a target region (on an empty
    selection pandas raises instead of returning a table), the general
    income table is not empty and has exactly one row per target region that
    has a record, in increasing order of the region code; the quarterly
    table is not empty and has one row per (region, year, quarter) of the
    target regions, in lexicographic order. *)
Theorem income_tables_rows (df : list defl_row) (target : option (list Z)) :
  (exists r, In r df /\ isin (AGLOMERADO (eph r)) target = true) ->
  (ingreso_promedio_por_aglomerado df target <> []
   /\ StronglySorted Z.lt (List.map fst (ingreso_promedio_por_aglomerado df target))
   /\ forall a : Z,
       In a (List.map fst (ingreso_promedio_por_aglomerado df target))
       <-> isin a target = true /\ exists r, In r df /\ AGLOMERADO (eph r) = a)
  /\ (ingreso_promedio_trimestral_por_aglomerado df target <> []
      /\ StronglySorted (fun a b => leb_ZZZ a b = true)
           (List.map fst (ingreso_promedio_trimestral_por_aglomerado df target))
      /\ List.NoDup (List.map fst (ingreso_promedio_trimestral_por_aglomerado df target))
      /\ forall k : Z * Z * Z,
          In k (List.map fst (ingreso_promedio_trimestral_por_aglomerado df target))
          <-> isin (fst (fst k)) target = true
              /\ exists r, In r df
                           /\ (AGLOMERADO (eph r), ANO4 (eph r), TRIMESTRE (eph r)) = k).
Proof.
  intros (r0 & Hr0 & Hi0).
  assert (Hne : forall (A B : Type) (f : A -> B) (l : list A) (b : B),
             In b (List.map f l) -> l <> []).
  { intros A B f l b Hin ->. destruct Hin. }
  split.
  - assert (Hkeys : List.map fst (ingreso_promedio_por_aglomerado df target)
                    = group_keys (fun r => AGLOMERADO (eph r)) Z.eqb Z.leb
                        (List.filter (fun r => isin (AGLOMERADO (eph r)) target) df)).
    { unfold ingreso_promedio_por_aglomerado, groupby. cbv zeta.
      rewrite !List.map_map. simpl. apply List.map_id. }
    assert (Hin : forall a : Z,
               In a (List.map fst (ingreso_promedio_por_aglomerado df target))
               <-> isin a target = true /\ exists r, In r df /\ AGLOMERADO (eph r) = a).
    { intros a. rewrite Hkeys, (group_keys_In _ _ _ Z.eqb_eq). split.
      + intros (r & Hr & <-). apply filter_In in Hr. destruct Hr as [Hr Hi]. eauto.
      + intros (Hi & r & Hr & <-). exists r. split; [|reflexivity].
        apply filter_In. auto. }
    split.
    { apply (Hne _ _ fst _ (AGLOMERADO (eph r0))). apply Hin. eauto. }
    split; [|exact Hin]. rewrite Hkeys.
    destruct (group_keys_sorted_NoDup (fun r => AGLOMERADO (eph r)) Z.eqb Z.leb
                Z.eqb_eq Zleb_total Zleb_trans
                (List.filter (fun r => isin (AGLOMERADO (eph r)) target) df)) as [Hs Hnd].
    apply sorted_NoDup_strict; assumption.
  - assert (Hkeys : List.map fst (ingreso_promedio_trimestral_por_aglomerado df target)
                    = group_keys
                        (fun r => (AGLOMERADO (eph r), ANO4 (eph r), TRIMESTRE (eph r)))
                        eqb_ZZZ leb_ZZZ
                        (List.filter (fun r => isin (AGLOMERADO (eph r)) target) df)).
    { unfold ingreso_promedio_trimestral_por_aglomerado, groupby. cbv zeta.
      rewrite !List.map_map. simpl. apply List.map_id. }
    assert (Hin : forall k : Z * Z * Z,
               In k (List.map fst (ingreso_promedio_trimestral_por_aglomerado df target))
               <-> isin (fst (fst k)) target = true
                   /\ exists r, In r df
                                /\ (AGLOMERADO (eph r), ANO4 (eph r), TRIMESTRE (eph r)) = k).
    { intros k. rewrite Hkeys, (group_keys_In _ _ _ eqb_ZZZ_eq). split.
      + intros (r & Hr & <-). apply filter_In in Hr. destruct Hr as [Hr Hi]. simpl. eauto.
      + intros (Hi & r & Hr & <-). exists r. split; [|reflexivity].
        apply filter_In. auto. }
    split.
    { apply (Hne _ _ fst _
               (AGLOMERADO (eph r0), ANO4 (eph r0), TRIMESTRE (eph r0))).
      apply Hin. simpl. eauto. }
    rewrite Hkeys.
    destruct (group_keys_sorted_NoDup
                (fun r => (AGLOMERADO (eph r), ANO4 (eph r), TRIMESTRE (eph r)))
                eqb_ZZZ leb_ZZZ eqb_ZZZ_eq leb_ZZZ_total leb_ZZZ_trans
                (List.filter (fun r => isin (AGLOMERADO (eph r)) target) df)) as [Hs Hnd].
    split; [exact Hs|]. split; [exact Hnd|]. rewrite <- Hkeys. exact Hin.
Qed.

Lemma income_tables_rows_witness :
  ingreso_promedio_por_aglomerado [fila (Some 1000) (Some 2) (Some 20)] (Some [31%Z]) <> []
  /\ ingreso_promedio_trimestral_por_aglomerado
       [fila (Some 1000) (Some 2) (Some 20)] (Some [31%Z]) <> [].
Proof.
  destruct (income_tables_rows [fila (Some 1000) (Some 2) (Some 20)] (Some [31%Z]))
    as [(H1 & _) (H2 & _)].
  - exists (fila (Some 1000) (Some 2) (Some 20)). split; [left; reflexivity|reflexivity].
  - split; assumption.
Defined.
End WeightedMeanMore.

(** ** More on the cleanup for the income distribution *)

Section BoxplotMore.
Import Ingresos Boxplots Spec Pipeline Fixtures.

(** The steps of [limpiar_boxplot], in the order it runs them. *)
Lemma limpiar_boxplot_steps (df : frame) :
  posibles df <> [] ->
  limpiar_boxplot df
  = Ok (List.filter (adult_if_known df)
          (trim_outliers (995 # 1000) (positive_income_and_weight df))).
Proof.
  intros Hcol. unfold limpiar_boxplot. destruct (posibles df) as [|c cs]; [congruence|].
  cbv zeta.
  rewrite (filter_filter_andb (fun r => gt0 (INGRESO_REAL r))
             (fun r => gt0 (PONDERA (eph r))) (rows df)).
  fold (positive_income_and_weight df).
  fold (incomes (positive_income_and_weight df)).
  fold (trim_outliers (995 # 1000) (positive_income_and_weight df)).
  unfold adult_if_known. destruct (has_column "CH06" df); [reflexivity|].
  rewrite filter_all. reflexivity.
Qed.

Lemma sort_In (x : Q) (l : list Q) : In x (Stats.sort l) <-> In x l.
Proof.
  unfold Stats.sort. induction l as [|y l IH]; simpl; [tauto|].
  rewrite insert_sorted_In, IH. intuition congruence.
Qed.

Lemma incomes_In (x : Q) (df : list defl_row) :
  In x (incomes df) <-> exists r, In r df /\ INGRESO_REAL r = Some x.
Proof.
  unfold incomes. rewrite in_flat_map. split.
  - intros (r & Hr & Hx). exists r. split; [exact Hr|].
    destruct (INGRESO_REAL r) as [y|]; [|destruct Hx].
    destruct Hx as [->|[]]. reflexivity.
  - intros (r & Hr & Hx). exists r. split; [exact Hr|]. rewrite Hx. left; reflexivity.
Qed.

(** The 99.5th percentile of a non-empty series is at least its minimum. *)
Lemma quantile_995_above_lower_bound (l : list Q) (lo : Q) :
  l <> [] -> (forall y, In y l -> lo <= y) ->
  exists q, Stats.quantile l (995 # 1000) = Some q /\ lo <= q.
Proof.
  intros Hne Hlo. unfold Stats.quantile. destruct l as [|x l']; [congruence|].
  set (l := x :: l') in *. eexists. split; [reflexivity|].
  assert (Hn : (0 < length (Stats.sort l))%nat) by (rewrite sort_length; simpl; lia).
  assert (HN : 1 <= inject_Z (Z.of_nat (length l))).
  { change 1 with (inject_Z 1). rewrite <- Zle_Qle. simpl. lia. }
  assert (H0 : 0 <= (995 # 1000) * (inject_Z (Z.of_nat (length l)) - 1)) by nra.
  assert (H1 : (995 # 1000) * (inject_Z (Z.of_nat (length l)) - 1)
               <= inject_Z (Z.of_nat (length (Stats.sort l))) - 1)
    by (rewrite sort_length; nra).
  destruct (interpolate_bounds (Stats.sort l) (sort_sorted l) Hn _ H0 H1) as [Hb _].
  eapply Qle_trans; [|exact Hb]. apply Hlo. apply sort_In. apply nth_In.
  pose proof (position_floor (Stats.sort l) Hn _ H0 H1). lia.
Qed.

(** X16. Trimming never empties the table: a record with positive weight
    whose positive income is the smallest among the valid ones is kept
    (provided it passes the age filter when the table has CH06). *)
Theorem lowest_income_survives_trimming (df : frame) (r : defl_row) (x : Q) :
  posibles df <> [] ->
  In r (positive_income_and_weight df) ->
  INGRESO_REAL r = Some x ->
  (forall r' y, In r' (positive_income_and_weight df) -> INGRESO_REAL r' = Some y -> x <= y) ->
  adult_if_known df r = true ->
  exists out, limpiar_boxplot df = Ok out /\ In r out.
Proof.
  intros Hcol Hr Hx Hmin Hage. rewrite (limpiar_boxplot_steps df Hcol).
  eexists. split; [reflexivity|].
  apply filter_In. split; [|exact Hage].
  unfold trim_outliers. apply filter_In. split; [exact Hr|].
  destruct (quantile_995_above_lower_bound (incomes (positive_income_and_weight df)) x)
    as (q & Hq & Hle).
  - intros E. assert (Hin : In x (incomes (positive_income_and_weight df))).
    { apply incomes_In. eauto. }
    rewrite E in Hin. destruct Hin.
  - intros y Hy. apply incomes_In in Hy. destruct Hy as (r' & Hr' & Hy). eauto.
  - rewrite Hq, Hx. simpl. apply Qle_bool_iff. exact Hle.
Qed.

Lemma lowest_income_survives_trimming_witness :
  exists out,
    limpiar_boxplot tabla_con_menor = Ok out
    /\ In (fila (Some 100) (Some 1) (Some 30)) out.
Proof.
  apply (lowest_income_survives_trimming tabla_con_menor
           (fila (Some 100) (Some 1) (Some 30)) 100).
  - vm_compute. discriminate.
  - left; reflexivity.
  - reflexivity.
  - intros r' y [<-|[<-|[<-|[]]]] H; inversion H; subst; discriminate.
  - reflexivity.
Defined.

Lemma limpiar_boxplot_adults (df : frame) :
  posibles df <> [] ->
  Forall (fun r => adult_if_known df r = true) (rows df) ->
  limpiar_boxplot df = Ok (validity_then_trimming df).
Proof.
  intros Hcol Hall. rewrite (limpiar_boxplot_steps df Hcol). f_equal.
  assert (Hv : List.filter
                 (fun r => (gt0 (INGRESO_REAL r) && gt0 (PONDERA (eph r))
                            && adult_if_known df r)%bool) (rows df)
               = positive_income_and_weight df).
  { unfold positive_income_and_weight. apply List.filter_ext_in.
    rewrite List.Forall_forall in Hall. intros r Hr. rewrite (Hall r Hr).
    apply andb_true_r. }
  unfold validity_then_trimming. rewrite Hv.
  apply filter_all_true. apply List.Forall_forall. intros r Hr.
  rewrite List.Forall_forall in Hall. apply Hall.
  unfold trim_outliers in Hr. apply filter_In in Hr. destruct Hr as [Hr _].
  unfold positive_income_and_weight in Hr. apply filter_In in Hr. tauto.
Qed.

End BoxplotMore.

(** ** The income computation as a whole *)

Section PipelineFacts.
Import Ingresos Boxplots Spec Pipeline Fixtures.

Lemma find_none_filter {A : Type} (f : A -> bool) (l : list A) :
  List.find f l = None -> List.filter f l = [].
Proof.
  intros H. apply filter_none. intros a Ha. exact (find_none f l H a Ha).
Qed.

Lemma has_column_filtrar_adultos (df : frame) :
  columns (filtrar_adultos df) = columns df.
Proof. unfold filtrar_adultos. destruct (has_column "CH06" df); reflexivity. Qed.

Lemma filtrar_adultos_rows (df : frame) :
  rows (filtrar_adultos df) = List.filter (adult_if_known df) (rows df).
Proof.
  unfold filtrar_adultos, adult_if_known.
  destruct (has_column "CH06" df); simpl; [reflexivity|].
  rewrite filter_all. reflexivity.
Qed.

(** The employed cohort that [calcular_ingresos] returns holds adults only
    (when the table has CH06). *)
Lemma df_ocup_adults
      (columnas : list string) (df_eph : list eph_row) (ipc_df : list ipc_row)
      (ano_base trimestre_base : Z) (aglos : option (list Z))
      (df_defl df_ocup : frame) t1 t2 :
  calcular_ingresos columnas df_eph ipc_df ano_base trimestre_base aglos
  = Ok (df_defl, df_ocup, t1, t2) ->
  Forall (fun r => adult_if_known df_ocup r = true) (rows df_ocup).
Proof.
  unfold calcular_ingresos.
  destruct (deflactar_ingreso df_eph ipc_df ano_base trimestre_base) as [out|e];
    [|discriminate].
  cbv zeta. intros [= _ <- _ _].
  apply List.Forall_forall. intros r Hr. simpl in Hr.
  apply filter_In in Hr. destruct Hr as [Hr _].
  rewrite filtrar_adultos_rows in Hr. apply filter_In in Hr. destruct Hr as [_ Hr].
  unfold adult_if_known, has_column in *. simpl.
  rewrite has_column_filtrar_adultos. exact Hr.
Qed.

(** X18. [calcular_ingresos] raises the IndexError of the deflator when the
    base period has no index entry.  When it has one and some employed
    record of the target regions is left (an adult, if the table has the
    CH06 column), it returns: df_ocup holds exactly the employed records of
    df_defl, in the same order, every one of them an adult when the table
    has CH06, and both income tables have a row. *)
Theorem calcular_ingresos_result
        (columnas : list string) (df_eph : list eph_row) (ipc_df : list ipc_row)
        (ano_base trimestre_base : Z) (aglos : option (list Z)) :
  (List.find (is_base ano_base trimestre_base) ipc_df = None ->
   calcular_ingresos columnas df_eph ipc_df ano_base trimestre_base aglos
   = Raise IndexError)
  /\ ((exists e, List.find (is_base ano_base trimestre_base) ipc_df = Some e) ->
      (exists r, In r df_eph /\ eqk (ESTADO r) 1 = true
                 /\ (existsb (String.eqb "CH06") columnas = true -> ge (CH06 r) 18 = true)
                 /\ isin (AGLOMERADO r) aglos = true) ->
      exists df_defl df_ocup tabla_aglo tabla_aglo_trim,
        calcular_ingresos columnas df_eph ipc_df ano_base trimestre_base aglos
        = Ok (df_defl, df_ocup, tabla_aglo, tabla_aglo_trim)
        /\ columns df_defl = columnas /\ columns df_ocup = columnas
        /\ rows df_ocup = List.filter (fun r => eqk (ESTADO (eph r)) 1) (rows df_defl)
        /\ Forall (fun r => adult_if_known df_ocup r = true) (rows df_ocup)
        /\ tabla_aglo <> [] /\ tabla_aglo_trim <> []).
Proof.
  split.
  - intros F. unfold calcular_ingresos, deflactar_ingreso.
    rewrite (find_none_filter _ _ F). reflexivity.
  - intros [e F] (r & Hr & Hest & Hage & Hisin).
    destruct (find_filter_head _ _ _ F) as [rest E].
    unfold calcular_ingresos, deflactar_ingreso. rewrite E. cbv zeta.
    set (mk := fun ri : eph_row * float =>
                 {| eph := fst ri; IPC := snd ri;
                    INGRESO_REAL := fmul (P47T (fst ri)) (fdiv (i_IPC e) (snd ri)) |}).
    set (d := {| columns := columnas; rows := List.map mk (merge_left df_eph ipc_df) |}).
    eexists. eexists. eexists. eexists. split; [reflexivity|].
    split; [apply has_column_filtrar_adultos|].
    split; [apply has_column_filtrar_adultos|]. split; [reflexivity|].
    split.
    + apply List.Forall_forall. intros o Ho. simpl in Ho.
      apply filter_In in Ho. destruct Ho as [Ho _].
      rewrite filtrar_adultos_rows in Ho. apply filter_In in Ho. destruct Ho as [_ Ho].
      unfold adult_if_known, has_column in *. simpl.
      rewrite has_column_filtrar_adultos. exact Ho.
    + apply (proj2 (merge_left_records_In df_eph ipc_df r)) in Hr.
      apply List.in_map_iff in Hr. destruct Hr as ([r' i] & Hfst & Hin).
      simpl in Hfst. subst r'.
      apply (income_tables_nonempty _ aglos (mk (r, i))); [|exact Hisin].
      unfold filtrar_ocupados. cbn [rows]. apply filter_In. split; [|exact Hest].
      rewrite filtrar_adultos_rows. apply filter_In. split.
      * unfold d. cbn [rows]. apply List.in_map_iff. exists (r, i). auto.
      * unfold adult_if_known, has_column, d. cbn [columns].
        destruct (existsb (String.eqb "CH06") columnas); [apply Hage|]; reflexivity.
Qed.

Lemma calcular_ingresos_result_witness :
  exists df_defl df_ocup tabla_aglo tabla_aglo_trim,
    calcular_ingresos ["CH06"; "PONDERA"; "INGRESO_REAL"]%string
      [ocupado (Some 1000) (Some 2) NaN] [ipc_2024T1 (Some 100)] 2024 1 (Some [31%Z])
    = Ok (df_defl, df_ocup, tabla_aglo, tabla_aglo_trim)
    /\ columns df_defl = ["CH06"; "PONDERA"; "INGRESO_REAL"]%string
    /\ columns df_ocup = ["CH06"; "PONDERA"; "INGRESO_REAL"]%string
    /\ rows df_ocup = List.filter (fun r => eqk (ESTADO (eph r)) 1) (rows df_defl)
    /\ Forall (fun r => adult_if_known df_ocup r = true) (rows df_ocup)
    /\ tabla_aglo <> [] /\ tabla_aglo_trim <> [].
Proof.
  apply (proj2 (calcular_ingresos_result ["CH06"; "PONDERA"; "INGRESO_REAL"]%string
                  [ocupado (Some 1000) (Some 2) NaN] [ipc_2024T1 (Some 100)]
                  2024 1 (Some [31%Z]))).
  - exists (ipc_2024T1 (Some 100)). reflexivity.
  - exists (ocupado (Some 1000) (Some 2) NaN).
    split; [left; reflexivity|]. split; [reflexivity|]. split; reflexivity.
Defined.

(** X19. For the cohort that the pipeline draws ([limpiar_boxplot] is run on
    the df_ocup of [calcular_ingresos], already restricted to adults), and
    for any table whose records are all adults, the order of the filters
    does not matter: the cleanup returns what running every validity filter
    first and the trimming last returns. *)
Theorem limpiar_boxplot_order_immaterial_on_adults :
  (forall df : frame,
      posibles df <> [] ->
      Forall (fun r => adult_if_known df r = true) (rows df) ->
      limpiar_boxplot df = Ok (validity_then_trimming df))
  /\ (forall (columnas : list string) (df_eph : list eph_row) (ipc_df : list ipc_row)
             (ano_base trimestre_base : Z) (aglos : option (list Z))
             (df_defl df_ocup : frame) t1 t2,
         calcular_ingresos columnas df_eph ipc_df ano_base trimestre_base aglos
         = Ok (df_defl, df_ocup, t1, t2) ->
         posibles df_ocup <> [] ->
         limpiar_boxplot df_ocup = Ok (validity_then_trimming df_ocup)).
Proof.
  split; [exact limpiar_boxplot_adults|].
  intros columnas df_eph ipc_df ano_base trimestre_base aglos df_defl df_ocup t1 t2 H Hcol.
  apply limpiar_boxplot_adults; [exact Hcol|].
  exact (df_ocup_adults _ _ _ _ _ _ _ _ _ _ H).
Qed.

Lemma limpiar_boxplot_order_immaterial_on_adults_witness :
  limpiar_boxplot
    {| columns := ["CH06"; "INGRESO_REAL"]%string;
       rows := [fila (Some 100) (Some 1) (Some 30); fila (Some 200) (Some 1) (Some 40)] |}
  = Ok (validity_then_trimming
          {| columns := ["CH06"; "INGRESO_REAL"]%string;
             rows := [fila (Some 100) (Some 1) (Some 30);
                      fila (Some 200) (Some 1) (Some 40)] |}).
Proof.
  apply (proj1 limpiar_boxplot_order_immaterial_on_adults
           {| columns := ["CH06"; "INGRESO_REAL"]%string;
              rows := [fila (Some 100) (Some 1) (Some 30);
                       fila (Some 200) (Some 1) (Some 40)] |}).
  - vm_compute. discriminate.
  - repeat constructor.
Defined.
End PipelineFacts.

(** ** Selecting rows by a property of the key commutes with grouping *)

Section GroupByFilter.
Context {A K : Type}.
Variable key : A -> K.
Variable keqb : K -> K -> bool.
Variable kleb : K -> K -> bool.
Hypothesis keqb_eq : forall a b, keqb a b = true <-> a = b.
Hypothesis kleb_total : forall a b, kleb a b = true \/ kleb b a = true.
Hypothesis kleb_trans : forall a b c, kleb a b = true -> kleb b c = true -> kleb a c = true.
Variable p : K -> bool.

Lemma filter_map_comm {B C : Type} (f : B -> C) (q : C -> bool) (l : list B) :
  List.filter q (List.map f l) = List.map f (List.filter (fun b => q (f b)) l).
Proof.
  induction l as [|b l IH]; simpl; [reflexivity|].
  destruct (q (f b)); simpl; rewrite IH; reflexivity.
Qed.

Lemma existsb_keqb_filter (k : K) (ks : list K) :
  p k = true -> existsb (keqb k) (List.filter p ks) = existsb (keqb k) ks.
Proof.
  intros Hk. induction ks as [|x ks IH]; simpl; [reflexivity|].
  destruct (p x) eqn:Px; simpl; [rewrite IH; reflexivity|].
  destruct (keqb k x) eqn:E; [|exact IH].
  apply keqb_eq in E. subst x. congruence.
Qed.

Lemma unique_keys_filter (ks : list K) :
  unique_keys keqb (List.filter p ks) = List.filter p (unique_keys keqb ks).
Proof.
  induction ks as [|k ks IH]; simpl; [reflexivity|].
  destruct (p k) eqn:Pk; simpl.
  - rewrite (existsb_keqb_filter k ks Pk).
    destruct (existsb (keqb k) ks); simpl; [exact IH|]. rewrite Pk, IH. reflexivity.
  - destruct (existsb (keqb k) ks); simpl; [exact IH|]. rewrite Pk. exact IH.
Qed.

Lemma insert_key_head (k : K) (l : list K) :
  Forall (fun x => kleb k x = true) l -> insert_key kleb k l = k :: l.
Proof.
  destruct l as [|x l]; simpl; [reflexivity|].
  intros H. inversion H as [|? ? Hx Hl]; subst. rewrite Hx. reflexivity.
Qed.

Lemma filter_insert_key (k : K) (s : list K) :
  StronglySorted (fun a b => kleb a b = true) s ->
  List.filter p (insert_key kleb k s)
  = if p k then insert_key kleb k (List.filter p s) else List.filter p s.
Proof.
  induction 1 as [|k0 s Hs IH Hall]; simpl.
  - destruct (p k); reflexivity.
  - destruct (kleb k k0) eqn:E.
    + simpl. destruct (p k) eqn:Pk; [|reflexivity].
      symmetry. apply insert_key_head.
      apply List.Forall_forall. intros x Hx.
      assert (Hin : In x (List.filter p (k0 :: s))) by exact Hx.
      apply filter_In in Hin. destruct Hin as [[<-|Hin] _]; [exact E|].
      rewrite List.Forall_forall in Hall.
      apply kleb_trans with k0; [exact E|]. apply Hall. exact Hin.
    + simpl. rewrite IH. destruct (p k0) eqn:P0, (p k) eqn:Pk; simpl;
        rewrite ?E; reflexivity.
Qed.

Lemma fold_insert_key_sorted (ks : list K) :
  StronglySorted (fun a b => kleb a b = true) (fold_right (insert_key kleb) [] ks).
Proof.
  induction ks as [|k ks IH]; simpl; [constructor|].
  apply insert_key_sorted; assumption.
Qed.

Lemma fold_insert_key_filter (ks : list K) :
  fold_right (insert_key kleb) [] (List.filter p ks)
  = List.filter p (fold_right (insert_key kleb) [] ks).
Proof.
  induction ks as [|k ks IH]; simpl; [reflexivity|].
  rewrite (filter_insert_key k _ (fold_insert_key_sorted ks)).
  destruct (p k); simpl; rewrite IH; reflexivity.
Qed.

Lemma group_keys_filter (rows : list A) :
  group_keys key keqb kleb (List.filter (fun r => p (key r)) rows)
  = List.filter p (group_keys key keqb kleb rows).
Proof.
  unfold group_keys.
  rewrite <- fold_insert_key_filter, <- unique_keys_filter, filter_map_comm.
  reflexivity.
Qed.

Lemma group_rows_filter (k : K) (rows : list A) :
  p k = true ->
  group_rows key keqb k (List.filter (fun r => p (key r)) rows)
  = group_rows key keqb k rows.
Proof.
  intros Pk. unfold group_rows. induction rows as [|r rows IH]; simpl; [reflexivity|].
  destruct (p (key r)) eqn:Pr; simpl.
  - rewrite IH. reflexivity.
  - destruct (keqb (key r) k) eqn:E; [|exact IH].
    apply keqb_eq in E. congruence.
Qed.

(** The groups of the selected rows are the selected groups of all rows. *)
Lemma groupby_filter (rows : list A) :
  groupby key keqb kleb (List.filter (fun r => p (key r)) rows)
  = List.filter (fun g => p (fst g)) (groupby key keqb kleb rows).
Proof.
  unfold groupby. rewrite group_keys_filter, filter_map_comm. simpl.
  apply List.map_ext_in. intros k Hk. apply filter_In in Hk. destruct Hk as [_ Pk].
  rewrite (group_rows_filter k rows Pk). reflexivity.
Qed.
End GroupByFilter.

(** ** The reduced file (recortar_aglomerados.py) and what is computed from it *)

Section RecortarFacts.
Import Ingresos Boxplots Tasas Ramas Spec Pipeline Fixtures.

Lemma filter_comm {A : Type} (f g : A -> bool) (l : list A) :
  List.filter f (List.filter g l) = List.filter g (List.filter f l).
Proof.
  rewrite !filter_filter_andb. apply List.filter_ext. intros a. apply andb_comm.
Qed.

Lemma filter_idem {A : Type} (f : A -> bool) (l : list A) :
  List.filter f (List.filter f l) = List.filter f l.
Proof.
  rewrite filter_filter_andb. apply List.filter_ext. intros a. destruct (f a); reflexivity.
Qed.

Lemma filter_flat_map {A B : Type} (f : A -> list B) (P : A -> bool) (Q : B -> bool)
      (l : list A) :
  (forall a b, In b (f a) -> Q b = P a) ->
  List.filter Q (flat_map f l) = flat_map f (List.filter P l).
Proof.
  intros H. induction l as [|a l IH]; simpl; [reflexivity|].
  rewrite List.filter_app, IH.
  destruct (P a) eqn:Pa; simpl.
  - f_equal. apply filter_all_true. apply List.Forall_forall. intros b Hb.
    rewrite (H a b Hb). exact Pa.
  - rewrite filter_none; [reflexivity|]. intros b Hb. rewrite (H a b Hb). exact Pa.
Qed.

Lemma merge_left_recortar (df : list eph_row) (ipc_df : list ipc_row) (aglos : list Z) :
  merge_left (recortar df aglos) ipc_df
  = List.filter (fun ri => isin (AGLOMERADO (fst ri)) (Some aglos)) (merge_left df ipc_df).
Proof.
  unfold merge_left, recortar. symmetry. apply filter_flat_map.
  intros r [r' i] Hin. simpl.
  destruct (List.filter (same_period r) ipc_df) as [|e es].
  - destruct Hin as [[= <- _]|[]]. reflexivity.
  - apply List.in_map_iff in Hin. destruct Hin as (e' & [= <- _] & _). reflexivity.
Qed.

(** The employed adults drawn from the reduced file are those drawn from the
    full file that live in the target regions. *)
Lemma df_ocup_recortar (columnas : list string) (df : list eph_row) (ipc_df : list ipc_row)
      (aglos : list Z) (base : float) :
  let mk := fun ri : eph_row * float =>
              {| eph := fst ri; IPC := snd ri;
                 INGRESO_REAL := fmul (P47T (fst ri)) (fdiv base (snd ri)) |} in
  rows (filtrar_ocupados (filtrar_adultos
          {| columns := columnas;
             rows := List.map mk (merge_left (recortar df aglos) ipc_df) |}))
  = List.filter (fun r => isin (AGLOMERADO (eph r)) (Some aglos))
      (rows (filtrar_ocupados (filtrar_adultos
          {| columns := columnas; rows := List.map mk (merge_left df ipc_df) |}))).
Proof.
  intros mk. unfold filtrar_ocupados. cbn [rows].
  rewrite !filtrar_adultos_rows. cbn [rows].
  rewrite merge_left_recortar.
  rewrite (filter_comm (fun r => isin (AGLOMERADO (eph r)) (Some aglos))).
  rewrite (filter_comm (fun r => isin (AGLOMERADO (eph r)) (Some aglos))).
  f_equal.
  assert (Had : forall l1 l2 : list defl_row,
             adult_if_known {| columns := columnas; rows := l1 |}
             = adult_if_known {| columns := columnas; rows := l2 |}) by reflexivity.
  rewrite (Had _ (List.map mk (merge_left df ipc_df))). f_equal.
  rewrite filter_map_comm. reflexivity.
Qed.

(** X20. What is computed from the reduced file is what would be computed
    from the full clean file for the same target regions: the two income
    tables (or the same IndexError) and the table of branch shares are
    unchanged. *)
Theorem reduced_file_gives_the_same_tables
        (columnas : list string) (df : list eph_row) (ipc_df : list ipc_row)
        (ano_base trimestre_base : Z) (aglos : list Z) (edad_min : Z) :
  tablas (calcular_ingresos columnas (recortar df aglos) ipc_df ano_base trimestre_base
                            (Some aglos))
  = tablas (calcular_ingresos columnas df ipc_df ano_base trimestre_base (Some aglos))
  /\ participacion_empleo_por_rama (recortar df aglos) (Some aglos) edad_min
     = participacion_empleo_por_rama df (Some aglos) edad_min.
Proof.
  split.
  - unfold calcular_ingresos, deflactar_ingreso.
    destruct (List.filter (is_base ano_base trimestre_base) ipc_df) as [|e es];
      [reflexivity|].
    cbv zeta. unfold tablas.
    pose proof (df_ocup_recortar columnas df ipc_df aglos (i_IPC e)) as H.
    cbv zeta in H. rewrite H.
    unfold ingreso_promedio_por_aglomerado, ingreso_promedio_trimestral_por_aglomerado.
    cbv zeta. rewrite !filter_idem. reflexivity.
  - unfold participacion_empleo_por_rama, ocupados_con_rama, recortar. cbv zeta.
    rewrite filter_idem. reflexivity.
Qed.

(** X21. The rates table computed from the reduced file holds exactly the
    rows of the target regions of the table computed from the full file, in
    the same order and with the same rates. *)
Theorem reduced_file_rates (df : list eph_row) (aglos : list Z) :
  tasas_trimestrales (recortar df aglos)
  = List.filter (fun row => isin (fst (fst (fst row))) (Some aglos))
                (tasas_trimestrales df).
Proof.
  unfold tasas_trimestrales, adultos, recortar.
  rewrite filter_comm.
  rewrite (groupby_filter (fun r => (AGLOMERADO r, ANO4 r, TRIMESTRE r))
                          eqb_ZZZ leb_ZZZ eqb_ZZZ_eq leb_ZZZ_total leb_ZZZ_trans
                          (fun k => isin (fst (fst k)) (Some aglos))).
  rewrite filter_map_comm. reflexivity.
Qed.
End RecortarFacts.

(** ** The reduced file on disk *)

Section ArchivoRecortado.
Import Ingresos Pipeline.

(** X22. [generar_archivo_recortado] fails (FileNotFoundError) only when
    neither the reduced nor the clean file exists.  Otherwise no other path
    is touched; a reduced file that exists is left as it is, whatever the
    clean file or the target list; a missing one receives the records of
    the target regions of the clean file; and running it again, with any
    target list, changes nothing. *)
Theorem generar_archivo_recortado_effect
        (fs : gmap string (list eph_row)) (path_limpio path_recortado : string)
        (aglos : list Z) :
  match generar_archivo_recortado fs path_limpio path_recortado aglos with
  | FileNotFoundError => fs !! path_recortado = None /\ fs !! path_limpio = None
  | Done fs' =>
      (forall p, p <> path_recortado -> fs' !! p = fs !! p)
      /\ fs' !! path_recortado
         = match fs !! path_recortado with
           | Some old => Some old
           | None => (fun df => recortar df aglos) <$> (fs !! path_limpio)
           end
      /\ is_Some (fs' !! path_recortado)
      /\ forall aglos', generar_archivo_recortado fs' path_limpio path_recortado aglos'
                        = Done fs'
  end.
Proof.
  unfold generar_archivo_recortado.
  destruct (fs !! path_recortado) as [old|] eqn:Er.
  - rewrite Er. split; [reflexivity|]. split; [reflexivity|]. split; [eauto|].
    intros _. reflexivity.
  - destruct (fs !! path_limpio) as [df|] eqn:El; [|split; reflexivity].
    split; [intros p Hp; apply lookup_insert_ne; congruence|].
    rewrite lookup_insert_eq. split; [reflexivity|]. split; [eauto|].
    intros _. reflexivity.
Qed.
End ArchivoRecortado.

(** ** More on the univariate summary *)

Section UnivariadoMore.
Import Ingresos GraficosIngresos Spec Fixtures.

Lemma trunc_floor_nonneg (w : Q) : 0 <= w -> trunc w = Qfloor w.
Proof.
  destruct w as [n d]. unfold Qle, trunc, Qfloor. simpl. intros H.
  apply Z.quot_div_nonneg; lia.
Qed.

Lemma round_half_even_floor (w : Q) :
  w - inject_Z (Qfloor w) < 1 # 2 -> round_half_even w = Qfloor w.
Proof.
  intros H. unfold round_half_even. cbv zeta.
  destruct (Qle_bool (w - inject_Z (Qfloor w)) (1 # 2)) eqn:E1.
  - destruct (Qeq_bool (w - inject_Z (Qfloor w)) (1 # 2)) eqn:E2; [|reflexivity].
    apply Qeq_bool_iff in E2. rewrite E2 in H. discriminate H.
  - exfalso. apply Qlt_le_weak, Qle_bool_iff in H. congruence.
Qed.

Lemma trunc_below_one (w : Q) : 0 < w -> w < 1 -> trunc w = 0%Z.
Proof.
  intros H0 H1. rewrite trunc_floor_nonneg by (apply Qlt_le_weak; exact H0).
  apply Qfloor_unique; [apply Qlt_le_weak; exact H0|exact H1].
Qed.

Lemma expansion_ext (f g : Q -> Z) (t : list defl_row) :
  (forall x w, In (x, w) (elegibles t) -> f w = g w) ->
  expansion f t = expansion g t.
Proof.
  unfold expansion. induction (elegibles t) as [|[x w] e IH]; intros H; [reflexivity|].
  cbn [flat_map fst snd]. rewrite (H x w (or_introl eq_refl)). f_equal.
  apply IH. intros x' w' Hin. apply (H x' w'). right; exact Hin.
Qed.

Lemma expansion_In (f : Q -> Z) (t : list defl_row) (x : Q) :
  In x (expansion f t) -> exists w, In (x, w) (elegibles t).
Proof.
  unfold expansion. intros H. apply in_flat_map in H.
  destruct H as ([x' w] & Hin & Hx). apply repeat_spec in Hx. simpl in Hx. subst x'.
  exists w. exact Hin.
Qed.

Lemma elegibles_In_positive (t : list defl_row) (x w : Q) :
  In (x, w) (elegibles t) -> 0 < w.
Proof.
  intros Hin. pose proof (elegibles_positive t) as H.
  rewrite List.Forall_forall in H. exact (H (x, w) Hin).
Qed.

(** Weights that truncate to 0 leave an empty expansion. *)
Lemma expansion_empty (t : list defl_row) :
  (forall x w, In (x, w) (elegibles t) -> w < 1) -> expansion trunc t = [].
Proof.
  intros Hw. unfold expansion.
  assert (H : forall p, In p (elegibles t) -> trunc (snd p) = 0%Z).
  { intros [x w] Hin. simpl. apply trunc_below_one.
    - exact (elegibles_In_positive t x w Hin).
    - exact (Hw x w Hin). }
  clear Hw. induction (elegibles t) as [|p e IH]; [reflexivity|].
  cbn [flat_map]. rewrite (H p (or_introl eq_refl)). simpl.
  apply IH. intros q Hq. apply H. right; exact Hq.
Qed.

(** A quantile of a non-empty series lies between any two bounds of it. *)
Lemma quantile_bounds (l : list Q) (lo hi q : Q) :
  l <> [] -> 0 <= q -> q <= 1 -> (forall y, In y l -> lo <= y /\ y <= hi) ->
  exists v, Stats.quantile l q = Some v /\ lo <= v /\ v <= hi.
Proof.
  intros Hne Hq0 Hq1 Hb. unfold Stats.quantile. destruct l as [|x l']; [congruence|].
  set (l := x :: l') in *. eexists. split; [reflexivity|].
  assert (Hn : (0 < length (Stats.sort l))%nat) by (rewrite sort_length; simpl; lia).
  assert (HN : 1 <= inject_Z (Z.of_nat (length l))).
  { change 1 with (inject_Z 1). rewrite <- Zle_Qle. simpl. lia. }
  assert (H0 : 0 <= q * (inject_Z (Z.of_nat (length l)) - 1)) by nra.
  assert (H1 : q * (inject_Z (Z.of_nat (length l)) - 1)
               <= inject_Z (Z.of_nat (length (Stats.sort l))) - 1)
    by (rewrite sort_length; nra).
  destruct (interpolate_bounds (Stats.sort l) (sort_sorted l) Hn _ H0 H1) as [Hlo Hhi].
  pose proof (position_floor (Stats.sort l) Hn _ H0 H1) as Hpos.
  split.
  - eapply Qle_trans; [|exact Hlo]. apply Hb. apply sort_In. apply nth_In. lia.
  - eapply Qle_trans; [exact Hhi|]. apply Hb. apply sort_In. apply nth_In. lia.
Qed.

Lemma median_bounds (l : list Q) (lo hi : Q) :
  l <> [] -> (forall y, In y l -> lo <= y /\ y <= hi) ->
  exists v, Stats.median l = Some v /\ lo <= v /\ v <= hi.
Proof.
  intros Hne Hb.
  destruct (quartiles_ordered l Hne) as (a & m & b & _ & Hm & _).
  exists m. split; [exact Hm|].
  pose proof (median_interpolate l m Hm) as E.
  destruct (quantile_bounds l lo hi (1 # 2) Hne) as (v & Hv & H1 & H2);
    [discriminate|discriminate|exact Hb|].
  unfold Stats.quantile in Hv. destruct l as [|x l']; [congruence|].
  injection Hv as <-. rewrite E. split; [exact H1|exact H2].
Qed.






(** X23. When the fractional part of every eligible weight is below one
    half (in particular when the weights are whole numbers, as the survey's
    expansion factors are), truncating and rounding agree, and the quantiles
    are those of the multiset in which every eligible record is repeated
    round(w_i) times. *)
Theorem quantiles_by_rounded_repetition
        (aglo : Z) (periodo : string) (grupo : list defl_row) :
  (forall x w, In (x, w) (elegibles grupo) -> w - inject_Z (Qfloor w) < 1 # 2) ->
  cuantiles (univariado_grupo aglo periodo grupo)
  = quantiles_by_repetition round_half_even grupo.
Proof.
  intros Hw. rewrite cuantiles_univariado_grupo. unfold quantiles_by_repetition.
  rewrite (expansion_ext trunc round_half_even grupo); [reflexivity|].
  intros x w Hin. rewrite (round_half_even_floor w (Hw x w Hin)).
  apply trunc_floor_nonneg. apply Qlt_le_weak. exact (elegibles_In_positive _ _ _ Hin).
Qed.

Lemma quantiles_by_rounded_repetition_witness :
  cuantiles (univariado_grupo 31 "2024-T1"
               [fila (Some 1000) (Some 2) (Some 20); fila (Some 3000) (Some (13 # 10)) (Some 25)])
  = quantiles_by_repetition round_half_even
      [fila (Some 1000) (Some 2) (Some 20); fila (Some 3000) (Some (13 # 10)) (Some 25)].
Proof.
  apply (quantiles_by_rounded_repetition 31 "2024-T1"
           [fila (Some 1000) (Some 2) (Some 20);
            fila (Some 3000) (Some (13 # 10)) (Some 25)]).
  intros x w [H|[H|[]]]; inversion H; subst; reflexivity.
Defined.

(** X24. A group whose eligible weights are all below 1 has a weighted mean
    but no quantiles: every record is repeated int(w_i) = 0 times, so the
    median, Q25 and Q75 are taken over an empty series and are missing. *)
Theorem weights_below_one_leave_no_quantiles
        (aglo : Z) (periodo : string) (grupo : list defl_row) :
  elegibles grupo <> [] ->
  (forall x w, In (x, w) (elegibles grupo) -> w < 1) ->
  let u := univariado_grupo aglo periodo grupo in
  (exists m, MEDIA u = Some m)
  /\ MEDIANA u = NaN /\ Q25 u = NaN /\ Q75 u = NaN.
Proof.
  intros Hne Hw u. split.
  - unfold u. rewrite univariado_grupo_media. unfold weighted_mean.
    destruct (elegibles grupo); [congruence|]. eauto.
  - pose proof (cuantiles_univariado_grupo aglo periodo grupo) as H.
    unfold cuantiles, quantiles_by_repetition in H. cbv zeta in H.
    rewrite (expansion_empty grupo Hw) in H.
    injection H as H1 H2 H3. fold u in H1, H2, H3. auto.
Qed.

Lemma weights_below_one_leave_no_quantiles_witness :
  let u := univariado_grupo 31 "2024-T1"
             [fila (Some 1000) (Some (1 # 2)) (Some 20);
              fila (Some 3000) (Some (3 # 4)) (Some 25)] in
  (exists m, MEDIA u = Some m)
  /\ MEDIANA u = NaN /\ Q25 u = NaN /\ Q75 u = NaN.
Proof.
  apply (weights_below_one_leave_no_quantiles 31 "2024-T1"
           [fila (Some 1000) (Some (1 # 2)) (Some 20);
            fila (Some 3000) (Some (3 # 4)) (Some 25)]).
  - discriminate.
  - intros x w [H|[H|[]]]; inversion H; subst; reflexivity.
Defined.

(** X25. The median, Q25 and Q75 of a group lie between any lower and upper
    bound of its eligible incomes: the interpolation never leaves the range
    of the data. *)
Theorem quantiles_within_income_range
        (aglo : Z) (periodo : string) (grupo : list defl_row) (lo hi : Q) :
  (forall x w, In (x, w) (elegibles grupo) -> lo <= x /\ x <= hi) ->
  let u := univariado_grupo aglo periodo grupo in
  forall v, MEDIANA u = Some v \/ Q25 u = Some v \/ Q75 u = Some v ->
            lo <= v /\ v <= hi.
Proof.
  intros Hb u v Hv.
  pose proof (cuantiles_univariado_grupo aglo periodo grupo) as H.
  unfold cuantiles, quantiles_by_repetition in H. cbv zeta in H.
  injection H as H1 H2 H3. fold u in H1, H2, H3.
  assert (Hin : forall y, In y (expansion trunc grupo) -> lo <= y /\ y <= hi).
  { intros y Hy. destruct (expansion_In trunc grupo y Hy) as [w Hw]. exact (Hb y w Hw). }
  destruct (expansion trunc grupo) as [|x xs] eqn:E.
  - rewrite H1, H2, H3 in Hv. simpl in Hv. destruct Hv as [Hv|[Hv|Hv]]; discriminate.
  - assert (Hne : x :: xs <> []) by discriminate.
    destruct Hv as [Hv|[Hv|Hv]].
    + destruct (median_bounds (x :: xs) lo hi Hne Hin) as (m & Hm & Hr).
      rewrite H1, Hm in Hv. injection Hv as <-. exact Hr.
    + destruct (quantile_bounds (x :: xs) lo hi (25 # 100) Hne) as (m & Hm & Hr);
        [discriminate|discriminate|exact Hin|].
      rewrite H2, Hm in Hv. injection Hv as <-. exact Hr.
    + destruct (quantile_bounds (x :: xs) lo hi (75 # 100) Hne) as (m & Hm & Hr);
        [discriminate|discriminate|exact Hin|].
      rewrite H3, Hm in Hv. injection Hv as <-. exact Hr.
Qed.

Lemma quantiles_within_income_range_witness :
  MEDIANA (univariado_grupo 31 "2024-T1"
             [fila (Some 1000) (Some 2) (Some 20); fila (Some 3000) (Some 3) (Some 25)])
  = Some 3000
  /\ 1000 <= 3000 /\ 3000 <= 3000.
Proof.
  split; [reflexivity|].
  apply (quantiles_within_income_range 31 "2024-T1"
           [fila (Some 1000) (Some 2) (Some 20); fila (Some 3000) (Some 3) (Some 25)]
           1000 3000).
  - intros x w [H|[H|[]]]; inversion H; subst; split; discriminate.
  - left. reflexivity.
Defined.
End UnivariadoMore.

(** ** The rows of the participation table *)

Section ParticipacionMore.
Import Ingresos Ramas Spec Fixtures.

Lemma leb_ZZ_total (a b : Z * Z) : leb_ZZ a b = true \/ leb_ZZ b a = true.
Proof. rewrite !leb_ZZ_iff. lia. Qed.

Lemma leb_ZZ_trans (a b c : Z * Z) :
  leb_ZZ a b = true -> leb_ZZ b c = true -> leb_ZZ a c = true.
Proof. rewrite !leb_ZZ_iff. lia. Qed.

Lemma leb_ZZr_iff (a b : Z * Z * rama) :
  leb_ZZr a b = true
  <-> (fst (fst a) < fst (fst b)
       \/ (fst (fst a) = fst (fst b) /\ snd (fst a) < snd (fst b))
       \/ (fst (fst a) = fst (fst b) /\ snd (fst a) = snd (fst b)
           /\ leb_rama (snd a) (snd b) = true))%Z.
Proof.
  unfold leb_ZZr. rewrite orb_true_iff, andb_true_iff, negb_true_iff.
  rewrite <- not_true_iff_false, leb_ZZ_iff.
  unfold eqb_ZZ. rewrite andb_true_iff, !Z.eqb_eq. split.
  - intros [H|[[H1 H2] H3]]; [|right; right; auto].
    assert (fst (fst a) < fst (fst b)
            \/ (fst (fst a) = fst (fst b) /\ snd (fst a) < snd (fst b)))%Z by lia.
    tauto.
  - intros [H|[H|(H1 & H2 & H3)]]; [left; lia|left; lia|right; auto].
Qed.

Lemma leb_rama_total (a b : rama) : leb_rama a b = true \/ leb_rama b a = true.
Proof. destruct a, b; simpl; auto. Qed.

Lemma leb_rama_trans (a b c : rama) :
  leb_rama a b = true -> leb_rama b c = true -> leb_rama a c = true.
Proof. destruct a, b, c; simpl; auto. Qed.

Lemma leb_ZZr_total (a b : Z * Z * rama) : leb_ZZr a b = true \/ leb_ZZr b a = true.
Proof.
  rewrite !leb_ZZr_iff.
  destruct (leb_rama_total (snd a) (snd b)) as [H|H];
    destruct (Z.lt_total (fst (fst a)) (fst (fst b))) as [H1|[H1|H1]];
    destruct (Z.lt_total (snd (fst a)) (snd (fst b))) as [H2|[H2|H2]];
    intuition lia.
Qed.

Lemma leb_ZZr_trans (a b c : Z * Z * rama) :
  leb_ZZr a b = true -> leb_ZZr b c = true -> leb_ZZr a c = true.
Proof.
  rewrite !leb_ZZr_iff. intros Hab Hbc.
  destruct Hab as [Hab|[Hab|(Ha1 & Ha2 & Ha3)]];
    destruct Hbc as [Hbc|[Hbc|(Hb1 & Hb2 & Hb3)]];
    try (left; lia); try (right; left; lia).
  right; right. split; [lia|]. split; [lia|]. exact (leb_rama_trans _ _ _ Ha3 Hb3).
Qed.

(** A left merge on a key that the right table holds once keeps the left
    rows, one for one. *)
Lemma merge_num_total_fst (n : list (Z * Z * rama * Q)) (t : list (Z * Z * Q)) :
  (forall nr, In nr n ->
              exists tr, List.filter (fun tr => eqb_ZZ (fst (fst nr)) (fst tr)) t = [tr]) ->
  List.map fst (merge_num_total n t) = n.
Proof.
  unfold merge_num_total. induction n as [|nr n IH]; intros H; [reflexivity|].
  cbn [flat_map]. rewrite List.map_app, IH by (intros x Hx; apply H; right; exact Hx).
  destruct (H nr (or_introl eq_refl)) as [tr ->]. reflexivity.
Qed.

Lemma ocupados_con_rama_In (df : list eph_row) (aglos : option (list Z)) (edad_min : Z)
      (e : eph_row) (b : rama) :
  In (e, Some b) (ocupados_con_rama df aglos edad_min)
  <-> In e (employed df aglos edad_min (AGLOMERADO e) (ANO4 e))
      /\ _clasificar_rama (PP04B_COD e) = Some b.
Proof.
  rewrite <- filter_employed. unfold ocupados_con_rama, agregar_columna_rama. cbv zeta.
  rewrite List.in_map_iff, filter_In, !Z.eqb_refl. split.
  - intros (r & [= -> Hb] & Hin). auto.
  - intros [[Hin _] Hb]. exists e. rewrite Hb. auto.
Qed.

(** X26. The participation table has one row per (region, year, branch)
    with an employed record of that branch, in lexicographic order (Industria
    before Turismo); each row carries the employed weight of the branch, and
    the total of its region and year is never left missing by the merge. *)
Theorem participation_table_rows
        (df : list eph_row) (aglos_target : option (list Z)) (edad_min : Z) :
  let out := participacion_empleo_por_rama df aglos_target edad_min in
  let keys := List.map (fun p => (p_AGLOMERADO p, p_ANO4 p, RAMA p)) out in
  StronglySorted (fun a b => leb_ZZr a b = true) keys
  /\ List.NoDup keys
  /\ (forall (aglo ano : Z) (b : rama),
         In (aglo, ano, b) keys
         <-> exists r, In r (employed df aglos_target edad_min aglo ano)
                       /\ _clasificar_rama (PP04B_COD r) = Some b)
  /\ Forall (fun p =>
               OCUPADOS_RAMA p
               = branch_employed_weight df aglos_target edad_min
                   (p_AGLOMERADO p) (p_ANO4 p) (RAMA p)
               /\ OCUPADOS_TOTALES p
                  = Some (total_employed_weight df aglos_target edad_min
                            (p_AGLOMERADO p) (p_ANO4 p)))
            out.
Proof.
  cbv zeta. set (l := ocupados_con_rama df aglos_target edad_min).
  set (key2 := fun r : eph_row * option rama => (AGLOMERADO (fst r), ANO4 (fst r))).
  set (key3 := fun r : eph_row * rama => (AGLOMERADO (fst r), ANO4 (fst r), snd r)).
  assert (Hkeys : List.map (fun p => (p_AGLOMERADO p, p_ANO4 p, RAMA p))
                           (participacion_empleo_por_rama df aglos_target edad_min)
                  = group_keys key3 eqb_ZZr leb_ZZr (df_ocup_rama l)).
  { unfold participacion_empleo_por_rama. fold l. cbv zeta. rewrite List.map_map.
    cbn [p_AGLOMERADO p_ANO4 RAMA].
    rewrite (List.map_ext _ (fun m => fst (fst m)))
      by (intros [[[[a y] b] s] tot]; reflexivity).
    rewrite <- (List.map_map fst fst), merge_num_total_fst.
    - unfold num, groupby. rewrite !List.map_map. simpl. apply List.map_id.
    - intros [k s] Hin. cbn [fst].
      apply num_In in Hin. destruct Hin as [([e b] & Hr & Hk) _].
      apply df_ocup_rama_In in Hr.
      exists (fst k, nansum (List.map (fun r : eph_row * option rama => PONDERA (fst r))
                               (group_rows key2 eqb_ZZ (fst k) l))).
      apply (filter_key_unique fst _ (fst k)).
      + intros tr. rewrite eqb_ZZ_eq. split; congruence.
      + assert (E : List.map fst (ocup_total l) = group_keys key2 eqb_ZZ leb_ZZ l).
        { unfold ocup_total, groupby. rewrite !List.map_map. simpl. apply List.map_id. }
        rewrite E.
        apply (group_keys_sorted_NoDup key2 eqb_ZZ leb_ZZ eqb_ZZ_eq leb_ZZ_total leb_ZZ_trans).
      + apply ocup_total_In. split; [|reflexivity].
        exists (e, Some b). split; [exact Hr|]. rewrite <- Hk. reflexivity.
      + reflexivity. }
  rewrite Hkeys.
  destruct (group_keys_sorted_NoDup key3 eqb_ZZr leb_ZZr eqb_ZZr_eq leb_ZZr_total
              leb_ZZr_trans (df_ocup_rama l)) as [Hs Hnd].
  split; [exact Hs|]. split; [exact Hnd|]. split.
  - intros aglo ano b. rewrite (group_keys_In _ _ _ eqb_ZZr_eq). split.
    + intros ([e b'] & Hr & Hk). unfold key3 in Hk. simpl in Hk.
      injection Hk as <- <- ->. apply df_ocup_rama_In in Hr.
      apply ocupados_con_rama_In in Hr. exists e. exact Hr.
    + intros (e & Hin & Hb).
      assert (Hk : AGLOMERADO e = aglo /\ ANO4 e = ano).
      { unfold employed in Hin. apply filter_In in Hin. destruct Hin as [_ Hin].
        rewrite !andb_true_iff, !Z.eqb_eq in Hin. tauto. }
      destruct Hk as [<- <-]. exists (e, b). split; [|reflexivity].
      apply df_ocup_rama_In. apply ocupados_con_rama_In. auto.
  - apply List.Forall_forall. intros p Hp.
    apply participacion_In in Hp. cbv zeta in Hp. fold l in Hp.
    destruct Hp as (_ & Hr & Ht & _). split.
    + rewrite Hr. apply peso_rama_employed.
    + rewrite Ht. f_equal. apply peso_total_employed.
Qed.
End ParticipacionMore.

(** ** The period label and the quarterly groups *)

Section PeriodoFacts.
Import Stdlib.Strings.Ascii.
Import Ingresos GraficosIngresos Spec Fixtures.

Lemma pretty_N_char_not_T (x : N) : pretty_N_char x <> "T"%char.
Proof. unfold pretty_N_char. repeat case_match; discriminate. Qed.

Lemma pretty_N_go_no_T (x : N) (s : string) :
  ~ In "T"%char (Stdlib.Strings.String.list_ascii_of_string s) ->
  ~ In "T"%char (Stdlib.Strings.String.list_ascii_of_string (pretty_N_go x s)).
Proof.
  revert s. induction (N.lt_wf_0 x) as [x _ IH]. intros s Hs.
  destruct (N.eq_dec x 0%N) as [->|Hx]; [rewrite pretty_N_go_0; exact Hs|].
  rewrite pretty_N_go_step by lia. apply IH.
  - apply N.div_lt; lia.
  - simpl. intros [H|H]; [|contradiction].
    exact (pretty_N_char_not_T _ H).
Qed.

Lemma pretty_N_no_T (x : N) : ~ In "T"%char (Stdlib.Strings.String.list_ascii_of_string (pretty x)).
Proof.
  unfold pretty, pretty_N. destruct (decide (x = 0%N)).
  - simpl. intros [H|[]]. discriminate.
  - apply pretty_N_go_no_T. simpl. tauto.
Qed.

Lemma pretty_Z_no_T (z : Z) : ~ In "T"%char (Stdlib.Strings.String.list_ascii_of_string (pretty z)).
Proof.
  destruct z as [|p|p]; unfold pretty, pretty_Z.
  - simpl. intros [H|[]]. discriminate.
  - apply pretty_N_no_T.
  - simpl. intros [H|H]; [discriminate|]. exact (pretty_N_no_T _ H).
Qed.

Lemma string_app_cons (c : ascii) (s t : string) :
  String c s +:+ t = String c (s +:+ t).
Proof. reflexivity. Qed.

Lemma string_app_nil (t : string) : "" +:+ t = t.
Proof. reflexivity. Qed.

(** Two texts cut at their first "T" agree part by part. *)
Lemma split_at_T (s1 s2 t1 t2 : string) :
  ~ In "T"%char (Stdlib.Strings.String.list_ascii_of_string s1) ->
  ~ In "T"%char (Stdlib.Strings.String.list_ascii_of_string s2) ->
  s1 +:+ String "T" t1 = s2 +:+ String "T" t2 -> s1 = s2 /\ t1 = t2.
Proof.
  revert s2. induction s1 as [|c s1 IH]; intros [|c' s2] H1 H2 H;
    rewrite ?string_app_cons, ?string_app_nil in H; simpl in H1, H2.
  - injection H as ->. auto.
  - injection H as <- _. exfalso. apply H2. left; reflexivity.
  - injection H as -> _. exfalso. apply H1. left; reflexivity.
  - injection H as -> H. destruct (IH s2) as [-> ->]; auto.
Qed.

Lemma app_no_T (s t : string) :
  ~ In "T"%char (Stdlib.Strings.String.list_ascii_of_string s) ->
  ~ In "T"%char (Stdlib.Strings.String.list_ascii_of_string t) ->
  ~ In "T"%char (Stdlib.Strings.String.list_ascii_of_string (s +:+ t)).
Proof.
  intros Hs Ht. induction s as [|c s IH];
    rewrite ?string_app_cons, ?string_app_nil; [exact Ht|].
  simpl in *. intros [H|H]; [apply Hs; left; exact H|]. apply IH; [|exact H].
  intros H'. apply Hs. right; exact H'.
Qed.

Lemma string_app_String (s : string) (c : ascii) (t : string) :
  s +:+ String c t = (s +:+ String c "") +:+ t.
Proof.
  induction s as [|c' s IH]; [reflexivity|].
  rewrite !string_app_cons. f_equal. exact IH.
Qed.

(** The label "year-Tquarter" names one year and one quarter. *)
Lemma PERIODO_inj (r1 r2 : defl_row) :
  PERIODO r1 = PERIODO r2
  <-> ANO4 (eph r1) = ANO4 (eph r2) /\ TRIMESTRE (eph r1) = TRIMESTRE (eph r2).
Proof.
  unfold PERIODO. split; [|intros [-> ->]; reflexivity].
  intros H.
  change ("-T" +:+ pretty (TRIMESTRE (eph r1)))
    with (String "-" (String "T" (pretty (TRIMESTRE (eph r1))))) in H.
  change ("-T" +:+ pretty (TRIMESTRE (eph r2)))
    with (String "-" (String "T" (pretty (TRIMESTRE (eph r2))))) in H.
  rewrite (string_app_String (pretty (ANO4 (eph r1))) "-"),
          (string_app_String (pretty (ANO4 (eph r2))) "-") in H.
  apply split_at_T in H.
  - destruct H as [Ha Hq]. apply string_app_inj_r in Ha.
    split; [exact (inj pretty _ _ Ha)|exact (inj pretty _ _ Hq)].
  - apply app_no_T; [apply pretty_Z_no_T|]. simpl. intros [H'|[]]. discriminate.
  - apply app_no_T; [apply pretty_Z_no_T|]. simpl. intros [H'|[]]. discriminate.
Qed.

(** X27. The univariate summary and the quarterly income table agree: the
    period label names one (year, quarter), so every row of the summary
    whose region is among the targets carries, as MEDIA, the weighted mean
    that the quarterly table reports for that region, year and quarter. *)
Theorem univariate_mean_is_quarterly_mean
        (df_ocup : list defl_row) (target : option (list Z)) :
  Forall (fun u =>
            isin (u_AGLOMERADO u) target = true ->
            exists ano trimestre : Z,
              u_PERIODO u = (pretty ano +:+ "-T" +:+ pretty trimestre)%string
              /\ In (u_AGLOMERADO u, ano, trimestre, MEDIA u)
                    (ingreso_promedio_trimestral_por_aglomerado df_ocup target))
         (calcular_univariado df_ocup).
Proof.
  apply List.Forall_forall. intros u Hu Ht.
  unfold calcular_univariado in Hu. apply List.in_map_iff in Hu.
  destruct Hu as ([[a p] g] & <- & Hin). cbn [fst snd] in *.
  rewrite univariado_grupo_aglo in Ht |- *. rewrite univariado_grupo_periodo.
  rewrite univariado_grupo_media.
  assert (eqb_Zs_eq : forall x y : Z * string, eqb_Zs x y = true <-> x = y).
  { intros [x1 x2] [y1 y2]. unfold eqb_Zs. simpl.
    rewrite andb_true_iff, Z.eqb_eq, String.eqb_eq. split; [intros [-> ->]; reflexivity|].
    intros E; inversion E; auto. }
  apply (groupby_In _ _ _ eqb_Zs_eq) in Hin. destruct Hin as [(r & Hr & Hk) ->].
  injection Hk as <- <-.
  exists (ANO4 (eph r)), (TRIMESTRE (eph r)). split; [reflexivity|].
  unfold ingreso_promedio_trimestral_por_aglomerado. cbv zeta.
  apply List.in_map_iff.
  set (key3 := fun r : defl_row => (AGLOMERADO (eph r), ANO4 (eph r), TRIMESTRE (eph r))).
  set (dft := List.filter (fun r => isin (AGLOMERADO (eph r)) target) df_ocup).
  assert (Hg : group_rows key3 eqb_ZZZ (key3 r) dft
               = group_rows (fun r => (AGLOMERADO (eph r), PERIODO r)) eqb_Zs
                   (AGLOMERADO (eph r), PERIODO r) df_ocup).
  { transitivity (group_rows key3 eqb_ZZZ (key3 r) df_ocup).
    - exact (group_rows_filter key3 eqb_ZZZ eqb_ZZZ_eq
               (fun k => isin (fst (fst k)) target) (key3 r) df_ocup Ht).
    - unfold group_rows. apply List.filter_ext. intros r'.
      apply eq_true_iff_eq. rewrite eqb_ZZZ_eq, eqb_Zs_eq. unfold key3. split.
      + intros E. injection E as Ea Ey Eq. rewrite Ea. f_equal.
        apply PERIODO_inj. auto.
      + intros E. injection E as Ea Ep. apply PERIODO_inj in Ep.
        destruct Ep as [Ey Eq]. rewrite Ea, Ey, Eq. reflexivity. }
  exists (key3 r, group_rows key3 eqb_ZZZ (key3 r) dft). split.
  - cbn [fst snd]. rewrite wmean_weighted_mean, Hg. reflexivity.
  - apply (groupby_In _ _ _ eqb_ZZZ_eq). split; [|reflexivity].
    exists r. split; [|reflexivity]. unfold dft. apply filter_In. auto.
Qed.
End PeriodoFacts.
